(** * Retently feedback client: request executor, TTL cache and bulk writes

    A shallow embedding of [scripts/retently-client.ts] together with the
    cache package it imports, and the properties of the request/cache
    layer.

    Conventions of the embedding.
    - JavaScript strings are [string] (byte strings); [toLowerCase] maps the
      ASCII letters and leaves every other byte alone.
    - A JavaScript number that the client handles is an integer ([Z]);
      [parseInt] additionally produces [NaN].
    - [undefined] and [null] are [None].
    - An [async] method is a state transformer returning [Ok] or [Throw]
      ([Eff]); awaiting is sequencing.  The outside world (clock, network,
      remote service) is a type [W] with the operations of class [Host]. *)

From Stdlib Require Import ZArith List String Ascii Bool Lia.
From Stdlib Require Import DecimalString DecimalZ OrderedTypeEx Sorted Permutation.
From stdpp Require Import gmap strings list fin_maps sorting.

Set Default Proof Using "Type".
Set Warnings "-register-all".
Local Open Scope Z_scope.

(* ===================================================================== *)
(** * JavaScript primitives *)
(* ===================================================================== *)

Module Js.

(** Thrown values: every error the client sees has a name and a message. *)
Record Error := mkError { name : string; message : string }.

(** [new Error(msg)] *)
Definition newError (msg : string) : Error := mkError "Error" msg.

(** The rejection of an aborted [fetch]. *)
Definition AbortError : Error := mkError "AbortError" "This operation was aborted".

(** The rejection of [response.json()] on a malformed body: an error
    named SyntaxError.  Its message is the parser's own and depends on the
    body; the embedding fixes one, and no property is stated about it. *)
Definition SyntaxError : Error := mkError "SyntaxError" "Unexpected token in JSON".

Inductive Result (A : Type) : Type :=
| Ok (a : A)
| Throw (e : Error).
Arguments Ok {A} a.
Arguments Throw {A} e.

(** [number]: the integers, and [NaN] as produced by [parseInt]. *)
Inductive Number := NaN | Int (z : Z).

(** Parsed JSON documents. *)
Inductive Json :=
| JNull
| JBool (b : bool)
| JNum (z : Z)
| JStr (s : string)
| JArr (l : list Json)
| JObj (l : list (string * Json)).

(** The double-quote and backslash characters. *)
Definition dquote : ascii := "034"%char.
Definition backslash : ascii := "092"%char.

(** [String(n)] / template rendering of an integer. *)
Definition Z_toString (z : Z) : string := NilZero.string_of_int (Z.to_int z).

(** Template rendering of [number | null]. *)
Definition Number_toString (n : Number) : string :=
  match n with
  | NaN => "NaN"
  | Int z => Z_toString z
  end.

Definition nullable_toString (n : option Number) : string :=
  match n with
  | None => "null"
  | Some n => Number_toString n
  end.

(** Truthiness of [string | undefined | null]. *)
Definition truthy (s : option string) : bool :=
  match s with
  | None => false
  | Some EmptyString => false
  | Some _ => true
  end.

(** [a || b] on strings. *)
Definition or_else (s : option string) (d : string) : string :=
  if truthy s then default d s else d.

(** ** [String.prototype.toLowerCase] on ASCII *)

Definition lower_ascii (c : ascii) : ascii :=
  let n := N_of_ascii c in
  if ((65 <=? n) && (n <=? 90))%N then ascii_of_N (n + 32) else c.

Fixpoint toLowerCase (s : string) : string :=
  match s with
  | EmptyString => EmptyString
  | String c r => String (lower_ascii c) (toLowerCase r)
  end.

(** ** [parseInt(s, 10)] *)

(** StrWhiteSpaceChar within one byte: TAB, LF, VT, FF, CR, SP, NBSP. *)
Definition is_space (c : ascii) : bool :=
  let n := N_of_ascii c in
  (((9 <=? n) && (n <=? 13)) || (n =? 32) || (n =? 160))%N.

Definition digit_of (c : ascii) : option Z :=
  let n := N_of_ascii c in
  if ((48 <=? n) && (n <=? 57))%N then Some (Z.of_N n - 48) else None.

Fixpoint skip_space (s : string) : string :=
  match s with
  | String c r => if is_space c then skip_space r else s
  | EmptyString => s
  end.

(** Reads the longest digit prefix; [acc] is [None] until a digit is seen. *)
Fixpoint read_digits (acc : option Z) (s : string) : option Z :=
  match s with
  | EmptyString => acc
  | String c r =>
      match digit_of c with
      | Some d => read_digits (Some (10 * default 0 acc + d)) r
      | None => acc
      end
  end.

Definition parseInt (s : string) : Number :=
  let s := skip_space s in
  let '(sign, s) :=
    match s with
    | String "-" r => (-1, r)
    | String "+" r => (1, r)
    | _ => (1, s)
    end in
  match read_digits None s with
  | None => NaN
  | Some n => Int (sign * n)
  end.

(** ** Substrings *)

(** [msg.includes(sub)] *)
Definition includes (msg sub : string) : Prop :=
  exists pre post : string, msg = pre +:+ sub +:+ post.

(** [s.startsWith(p)] *)
Definition startsWith (s p : string) : bool := String.prefix p s.

End Js.

Import Js.

(* ===================================================================== *)
(** * Asynchronous computations *)
(* ===================================================================== *)

(** A computation over a state [S] that returns or throws. *)
Definition Eff (S A : Type) : Type := S -> Result A * S.

Definition ret {S A} (a : A) : Eff S A := fun s => (Ok a, s).

Definition throw {S A} (e : Error) : Eff S A := fun s => (Throw e, s).

Definition bind {S A B} (m : Eff S A) (k : A -> Eff S B) : Eff S B :=
  fun s =>
    match m s with
    | (Ok a, s') => k a s'
    | (Throw e, s') => (Throw e, s')
    end.

(** [try { m } catch (e) { h e }] *)
Definition try_catch {S A} (m : Eff S A) (h : Error -> Eff S A) : Eff S A :=
  fun s =>
    match m s with
    | (Ok a, s') => (Ok a, s')
    | (Throw e, s') => h e s'
    end.

Definition get {S} : Eff S S := fun s => (Ok s, s).
Definition modify {S} (f : S -> S) : Eff S unit := fun s => (Ok tt, f s).

Notation "'let!' x ':=' m 'in' k" := (bind m (fun x => k))
  (at level 10, x name, m at level 100, k at level 200).
Notation "'do!' m 'in' k" := (bind m (fun _ => k))
  (at level 10, m at level 100, k at level 200).

(** Runs a computation of the second component of a product state. *)
Definition lift_snd {C S A} (m : Eff S A) : Eff (C * S) A :=
  fun '(c, s) => let '(r, s') := m s in (r, (c, s')).

(* ===================================================================== *)
(** * HTTP: requests, responses and the host environment *)
(* ===================================================================== *)

(** [Record<string, string | number | boolean | undefined>] *)
Inductive ParamValue :=
| PString (s : string)
| PNumber (n : Z)
| PBoolean (b : bool).

(** An object literal: properties in insertion order, [None] for a property
    whose value is [undefined]. *)
Definition Params := list (string * option ParamValue).

(** [String(value)] *)
Definition String_of (v : ParamValue) : string :=
  match v with
  | PString s => s
  | PNumber n => Z_toString n
  | PBoolean true => "true"
  | PBoolean false => "false"
  end.

Module Customer.
(** [Partial<Customer>]: every field optional. *)
Record t := mk {
  id : option string;
  email : option string;
  first_name : option string;
  last_name : option string;
  company : option string;
  tags : option (list string);
  properties : option (list (string * Json));
  created_at : option string;
  updated_at : option string;
}.
End Customer.

(** The request bodies the client sends ([JSON.stringify] of which goes on
    the wire; the embedding keeps the document). *)
Inductive Payload :=
| CustomersBody (customers : list Customer.t)   (* { customers: chunk } *)
| EmailBody (email : string).                   (* { email } *)

Module Http.

Definition Headers := list (string * string).

(** [headers.get(name)]: field names compare case-insensitively, the
    values of a repeated field are joined by ", ", and the result is
    [null] when the field does not occur. *)
Definition Headers_get (h : Headers) (name : string) : option string :=
  match List.filter (fun nv => String.eqb (toLowerCase (fst nv)) (toLowerCase name)) h with
  | [] => None
  | (_, v) :: more => Some (fold_left (fun acc nv => acc +:+ ", " +:+ snd nv) more v)
  end.

(** The URL as the handler builds it: [href] is the string handed to
    [new URL], and [searchParams] are the pairs added by
    [searchParams.append], in order.  What [new URL] does to the string
    (percent-encoding, dot segments, a query inside it) is not part of the
    embedding; for a string without such characters it is the URL. *)
Record URL := mkURL {
  href : string;
  searchParams : list (string * string);
}.

(** What [fetch(url, fetchOptions)] puts on the wire. *)
Record FetchRequest := mkFetchRequest {
  url : URL;
  method : string;
  req_headers : Headers;
  req_body : option Payload;
}.

(** A response: [bodyAt] is the time, in ms after the request was issued,
    at which the body has been received in full. *)
Record Response := mkResponse {
  status : Z;
  headers : Headers;
  text : string;
  json : option Json;
  bodyAt : Z;
}.

(** [response.ok] *)
Definition ok (r : Response) : bool := (200 <=? status r) && (status r <=? 299).

(** What the network does with one request: the response head arrives
    [latency] ms after the request was issued, or the request fails after
    [latency] ms, or nothing ever comes back. *)
Inductive NetReply :=
| Responds (latency : Z) (r : Response)
| Fails (latency : Z) (e : Error)
| Hangs.

End Http.

Import Http.

(** The host: a clock and a network, both part of the outside world [W]. *)
Class Host (W : Type) := {
  Date_now : W -> Z;
  network : FetchRequest -> W -> NetReply * W;
}.

(* ===================================================================== *)
(** * The client object *)
(* ===================================================================== *)

Record RateLimitInfo := mkRateLimitInfo {
  remaining : option Number;
  limit : option Number;
  reset : option Number;
}.

(** The fields of a [RetentlyClient] instance. *)
Record RetentlyClient := mkClient {
  baseUrl : string;
  config_apiKey : string;
  cacheDisabled : bool;
  lastRateLimitInfo : RateLimitInfo;
}.

(** The instance as the constructor leaves it, given the key of
    [config.json]. *)
Definition new_RetentlyClient (apiKey : string) : RetentlyClient :=
  {| baseUrl := "https://app.retently.com/api/v2";
     config_apiKey := apiKey;
     cacheDisabled := false;
     lastRateLimitInfo := {| remaining := None; limit := None; reset := None |} |}.

(** The running process without the cache: the world, the requests issued
    so far (oldest first) and the client instance. *)
Record Proc (W : Type) := mkProc {
  world : W;
  wire : list FetchRequest;
  this : RetentlyClient;
}.
Arguments mkProc {W} _ _ _.
Arguments world {W} _.
Arguments wire {W} _.
Arguments this {W} _.

Definition set_lastRateLimitInfo {W} (i : RateLimitInfo) : Eff (Proc W) unit :=
  modify (fun p =>
    mkProc (world p) (wire p)
      {| baseUrl := baseUrl (this p);
         config_apiKey := config_apiKey (this p);
         cacheDisabled := cacheDisabled (this p);
         lastRateLimitInfo := i |}).

Definition set_cacheDisabled {W} (b : bool) : Eff (Proc W) unit :=
  modify (fun p =>
    mkProc (world p) (wire p)
      {| baseUrl := baseUrl (this p);
         config_apiKey := config_apiKey (this p);
         cacheDisabled := b;
         lastRateLimitInfo := lastRateLimitInfo (this p) |}).

(** [getRateLimitInfo()] *)
Definition getRateLimitInfo {W} (p : Proc W) : RateLimitInfo :=
  lastRateLimitInfo (this p).

(* ===================================================================== *)
(** * The HTTP request handler *)
(* ===================================================================== *)

Section Request.
Context {W : Type} `{Host W}.

(** [await fetch(url, { ..., signal })] under a timer armed for [timeout]
    ms: the request goes on the wire; the promise rejects with
    [AbortError] when the timer fires before the network settles. *)
Definition fetch (req : FetchRequest) (timeout : Z) : Eff (Proc W) Response :=
  fun p =>
    let '(reply, w') := network req (world p) in
    let p' := mkProc w' (wire p ++ [req]) (this p) in
    match reply with
    | Responds latency r =>
        if timeout <? latency then (Throw AbortError, p') else (Ok r, p')
    | Fails latency e =>
        if timeout <? latency then (Throw AbortError, p') else (Throw e, p')
    | Hangs => (Throw AbortError, p')
    end.

(** [await response.text()] while the timer is still armed. *)
Definition Response_text (r : Response) (timeout : Z) : Eff (Proc W) string :=
  if timeout <? bodyAt r then throw AbortError else ret (text r).

(** [response.json()], consumed after the timer has been cleared. *)
Definition Response_json (r : Response) : Eff (Proc W) Json :=
  match json r with
  | Some j => ret j
  | None => throw SyntaxError
  end.

Record RequestOptions := mkRequestOptions {
  opt_method : option string;
  opt_params : option Params;
  opt_body : option Payload;
  opt_timeout : option Z;
}.

(** [options = {}] *)
Definition no_options : RequestOptions := mkRequestOptions None None None None.

(** The header of one rate-limit field, parsed: [null] for a falsy
    [headers.get]. *)
Definition rate_field (h : Headers) (field : string) : option Number :=
  if truthy (Headers_get h field)
  then Some (parseInt (default "" (Headers_get h field)))
  else None.

Definition parseRateLimit (h : Headers) : RateLimitInfo :=
  {| remaining := rate_field h "X-RateLimit-Remaining";
     limit := rate_field h "X-RateLimit-Limit";
     reset := rate_field h "X-RateLimit-Reset" |}.

Definition rateLimitMessage (retryAfter : string) (i : RateLimitInfo) : string :=
  "Rate limit exceeded. Retry after " +:+ retryAfter +:+ " seconds. " +:+
  "Remaining: " +:+ nullable_toString (remaining i) +:+ "/" +:+
  nullable_toString (limit i).

Definition apiErrorMessage (st : Z) (errorText : string) : string :=
  "Retently API error (" +:+ Z_toString st +:+ "): " +:+ errorText.

Definition timeoutMessage (timeout : Z) (endpoint : string) : string :=
  "Request timeout after " +:+ Z_toString timeout +:+ "ms: " +:+ endpoint.

(** [private async request<T>(endpoint, options = {})] *)
Definition request (endpoint : string) (options : RequestOptions)
  : Eff (Proc W) Json :=
  let method := default "GET" (opt_method options) in
  let params := default [] (opt_params options) in
  let body := opt_body options in
  let timeout := default 30000 (opt_timeout options) in
  let! p := get in
  (* Build URL with query params *)
  let url :=
    mkURL (baseUrl (this p) +:+ endpoint)
      (flat_map (fun kv =>
         match snd kv with
         | Some value => [(fst kv, String_of value)]
         | None => []
         end) params) in
  (* the abort controller and its timer are the [timeout] given to
     [fetch] and [Response_text] *)
  try_catch
    (let fetchOptions :=
       mkFetchRequest url method
         [("X-Api-Key", config_apiKey (this p));
          ("Content-Type", "application/json");
          ("Accept", "application/json")]
         (match body with
          | Some b => if negb (String.eqb method "GET") then Some b else None
          | None => None
          end) in
     let! response := fetch fetchOptions timeout in
     (* Parse rate limit headers *)
     do! set_lastRateLimitInfo (parseRateLimit (headers response)) in
     (* Handle rate limiting *)
     if status response =? 429 then
       let retryAfter := or_else (Headers_get (headers response) "Retry-After") "60" in
       let! p' := get in
       throw (newError (rateLimitMessage retryAfter (lastRateLimitInfo (this p'))))
     else if negb (ok response) then
       let! errorText := Response_text response timeout in
       throw (newError (apiErrorMessage (status response) errorText))
     else Response_json response)
    (fun error =>
       if String.eqb (name error) "AbortError"
       then throw (newError (timeoutMessage timeout endpoint))
       else throw error).

End Request.

(* ===================================================================== *)
(** * The cache package ([@local/plugin-cache]) *)
(* ===================================================================== *)

Module TTL.
(** Modelled from the spec: the [TTL] constants of the cache package,
    which is not part of the sources; the policy table gives the
    durations (1 min, 5 min, 15 min, 1 hour), here in milliseconds, the
    unit of the clock. *)
Definition MINUTE : Z := 60 * 1000.
Definition FIVE_MINUTES : Z := 5 * MINUTE.
Definition FIFTEEN_MINUTES : Z := 15 * MINUTE.
Definition HOUR : Z := 60 * MINUTE.
End TTL.

Module PluginCache.

(** Modelled from the spec: the entry type of the cache package,
    [{ value, expiresAt }]. *)
Record CacheEntry (V : Type) := mkEntry { value : V; expiresAt : Z }.
Arguments mkEntry {V} _ _.
Arguments value {V} _.
Arguments expiresAt {V} _.

(** Modelled from the spec: the state of a [PluginCache] instance, which
    is not part of the sources: the constructor options, the store, the
    hit and miss counters and the enable switch. *)
Record t (V : Type) := mk {
  namespace : string;
  defaultTTL : Z;
  store : gmap string (CacheEntry V);
  hits : nat;
  misses : nat;
  enabled : bool;
}.
Arguments mk {V} _ _ _ _ _ _.
Arguments namespace {V} _.
Arguments defaultTTL {V} _.
Arguments store {V} _.
Arguments hits {V} _.
Arguments misses {V} _.
Arguments enabled {V} _.

(** [{ ttl, bypassCache }] *)
Record Options := mkOptions { ttl : Z; bypassCache : bool }.

Record CacheStats := mkStats {
  stat_hits : nat;
  stat_misses : nat;
  stat_size : nat;
  stat_enabled : bool;
}.

Section Ops.
Context {V : Type}.

(** Modelled from the spec: [new PluginCache({ namespace, defaultTTL })],
    an empty enabled cache. *)
Definition new (ns : string) (dflt : Z) : t V := mk ns dflt ∅ 0 0 true.

Definition with_store (f : gmap string (CacheEntry V) -> gmap string (CacheEntry V))
  (c : t V) : t V :=
  mk (namespace c) (defaultTTL c) (f (store c)) (hits c) (misses c) (enabled c).

Definition record_hit (c : t V) : t V :=
  mk (namespace c) (defaultTTL c) (store c) (S (hits c)) (misses c) (enabled c).

Definition record_miss (c : t V) : t V :=
  mk (namespace c) (defaultTTL c) (store c) (hits c) (S (misses c)) (enabled c).

Definition set_enabled (b : bool) (c : t V) : t V :=
  mk (namespace c) (defaultTTL c) (store c) (hits c) (misses c) b.

(** Modelled from the spec: [getOrFetch] of the cache package.  With
    [bypassCache] or a disabled cache the fetch function is called
    directly and nothing is stored.  Otherwise a stored entry with
    [now < expiresAt] is a hit; an expired entry is removed by the
    expiry check; a miss is recorded, the fetch function runs, and its
    result is stored with [expiresAt = now + ttl]; a failure propagates
    and stores nothing.  [now] reads the clock of the state [S] the
    fetch function runs in. *)
Definition getOrFetch {S : Type} (now : S -> Z)
  (key : string) (fetchFn : Eff S V) (opts : Options) : Eff (t V * S) V :=
  fun '(c, s) =>
    if bypassCache opts || negb (enabled c) then lift_snd fetchFn (c, s)
    else
      let miss (c0 : t V) :=
        match fetchFn s with
        | (Ok v, s') =>
            (Ok v, (with_store <[key := mkEntry v (now s' + ttl opts)]> c0, s'))
        | (Throw e, s') => (Throw e, (c0, s'))
        end in
      match store c !! key with
      | Some e =>
          if now s <? expiresAt e then (Ok (value e), (record_hit c, s))
          else miss (record_miss (with_store (delete key) c))
      | None => miss (record_miss c)
      end.

(** Modelled from the spec: [invalidate(key)] removes one entry and
    returns whether an entry existed. *)
Definition invalidate (key : string) (c : t V) : bool * t V :=
  (bool_decide (is_Some (store c !! key)), with_store (delete key) c).

(** Modelled from the spec: [invalidatePattern(regex)] removes every
    entry whose key matches and returns the count removed.  The regular
    expression is its [test] predicate on keys. *)
Definition invalidatePattern (regex : string -> bool) (c : t V) : nat * t V :=
  (size (filter (fun kv => regex (fst kv) = true) (store c)),
   with_store (filter (fun kv => regex (fst kv) = false)) c).

(** Modelled from the spec: [clear()] removes all entries and returns
    the prior count. *)
Definition clear (c : t V) : nat * t V :=
  (size (store c), with_store (fun _ => ∅) c).

(** Modelled from the spec: [disable()] / [enable()] toggle the global
    bypass and keep the stored entries. *)
Definition disable (c : t V) : t V := set_enabled false c.
Definition enable (c : t V) : t V := set_enabled true c.

(** Modelled from the spec: [getStats()] reads the counters. *)
Definition getStats (c : t V) : CacheStats :=
  mkStats (hits c) (misses c) (size (store c)) (enabled c).

End Ops.

End PluginCache.

(* ===================================================================== *)
(** * Cache keys *)
(* ===================================================================== *)

Module CacheKey.

(** The defined properties of a parameter object, in insertion order. *)
Definition defined (params : Params) : list (string * ParamValue) :=
  flat_map (fun kv =>
    match snd kv with
    | Some v => [(fst kv, v)]
    | None => []
    end) params.

(** Property names compared as [Array.prototype.sort] does by default. *)
Definition key_le (a b : string * ParamValue) : Prop :=
  String.le (fst a) (fst b).

#[global] Instance key_le_dec a b : Decision (key_le a b).
Proof. unfold key_le. apply _. Defined.

(** Entries ordered by property name. *)
Definition sort_entries (l : list (string * ParamValue)) : list (string * ParamValue) :=
  merge_sort key_le l.

(** A string between double quotes, with the double quote and the
    backslash escaped by a backslash. *)
Fixpoint escape (s : string) : string :=
  match s with
  | EmptyString => EmptyString
  | String c r =>
      if Ascii.eqb c dquote || Ascii.eqb c backslash
      then String backslash (String c (escape r))
      else String c (escape r)
  end.

Definition quote (s : string) : string :=
  String dquote (escape s +:+ String dquote EmptyString).

Definition stringify_value (v : ParamValue) : string :=
  match v with
  | PString s => quote s
  | PNumber n => Z_toString n
  | PBoolean true => "true"
  | PBoolean false => "false"
  end.

(** The properties of an object and its closing brace. *)
Fixpoint stringify_entries (l : list (string * ParamValue)) : string :=
  match l with
  | [] => "}"
  | kv :: r =>
      quote (fst kv) +:+ ":" +:+ stringify_value (snd kv) +:+
      match r with
      | [] => "}"
      | _ :: _ => "," +:+ stringify_entries r
      end
  end.

(** Modelled from the spec: [createCacheKey] of the cache package, which
    is not part of the sources.  The key is derived from the operation
    name and the parameter mapping, [undefined] parameters omitted and
    the rest taken in the order of their names: the operation name, a
    colon, and the JSON text of the normalized mapping. *)
Definition createCacheKey (operation : string) (params : Params) : string :=
  operation +:+ ":" +:+ "{" +:+ stringify_entries (sort_entries (defined params)).

End CacheKey.

Import CacheKey.

(* ===================================================================== *)
(** * Client operations *)
(* ===================================================================== *)

(** One row of [BulkResult['results']]. *)
Record ResultRow := mkRow {
  row_email : string;
  row_success : bool;
  row_error : option string;
}.

Record BulkResult := mkBulkResult {
  write_operation : bool;
  action : string;
  success_count : nat;
  error_count : nat;
  results : list ResultRow;
}.

Record DeleteResult := mkDeleteResult {
  del_write_operation : bool;
  del_action : string;
  deleted : bool;
}.

Inductive SortOrder := asc | desc.

Definition SortOrder_toString (o : SortOrder) : string :=
  match o with asc => "asc" | desc => "desc" end.

Record ListCustomersOptions := mkListCustomersOptions {
  lc_page : option Z;
  lc_perPage : option Z;
  lc_email : option string;
}.

Record ListFeedbackOptions := mkListFeedbackOptions {
  lf_page : option Z;
  lf_perPage : option Z;
  lf_campaignId : option string;
  lf_since : option string;
  lf_until : option string;
  lf_sort : option SortOrder;
}.

(** [/^customer/.test(key)] *)
Definition customer_pattern (key : string) : bool := startsWith key "customer".

(** The first pass of [createCustomers]: the [filter] callback with its
    [seen] set, kept in insertion order. *)
Fixpoint dedupe_from (seen : list string) (customers : list Customer.t)
  : list Customer.t :=
  match customers with
  | [] => []
  | c :: rest =>
      if negb (truthy (Customer.email c)) then dedupe_from seen rest
      else
        let e := toLowerCase (default "" (Customer.email c)) in
        if bool_decide (e ∈ seen) then dedupe_from seen rest
        else c :: dedupe_from (seen ++ [e]) rest
  end.

Definition dedupe (customers : list Customer.t) : list Customer.t :=
  dedupe_from [] customers.

Definition chunkSize : nat := 1000.

(** [deduped.slice(i, i + chunkSize)] *)
Definition slice {A} (l : list A) (i j : nat) : list A := take (j - i) (drop i l).

Definition success_row (c : Customer.t) : ResultRow :=
  mkRow (default "" (Customer.email c)) true None.

Definition failure_row (msg : string) (c : Customer.t) : ResultRow :=
  mkRow (default "" (Customer.email c)) false (Some msg).

(** The accumulators of the chunk loop: [results], [successCount],
    [errorCount]. *)
Record Tally := mkTally {
  t_results : list ResultRow;
  t_success : nat;
  t_error : nat;
}.

Section Client.
Context {W : Type} `{Host W}.

(** The process: the module-level [cache] and the rest. *)
Definition St : Type := PluginCache.t Json * Proc W.

(** [Date.now()] *)
Definition now_of (p : Proc W) : Z := Date_now (world p).

(** The module-level [cache] as constructed at load time. *)
Definition initial_cache : PluginCache.t Json :=
  PluginCache.new "retently-feedback-manager" TTL.FIVE_MINUTES.

Definition disableCache : Eff St unit :=
  fun '(cache, p) =>
    let '(r, p') := set_cacheDisabled true p in
    (r, (PluginCache.disable cache, p')).

Definition enableCache : Eff St unit :=
  fun '(cache, p) =>
    let '(r, p') := set_cacheDisabled false p in
    (r, (PluginCache.enable cache, p')).

(** The fetch function of [listCustomers]. *)
Definition listCustomers_fetch (options : ListCustomersOptions) : Eff (Proc W) Json :=
  let params : Params :=
    [("page", PNumber <$> lc_page options);
     ("per_page", PNumber <$> lc_perPage options)] in
  (* Email filter if provided *)
  let params :=
    if truthy (lc_email options)
    then params ++ [("email", PString <$> lc_email options)]
    else params in
  request "/customers" (mkRequestOptions None (Some params) None None).

Definition listCustomers_key (options : ListCustomersOptions) : string :=
  createCacheKey "customers"
    [("page", PNumber <$> lc_page options);
     ("perPage", PNumber <$> lc_perPage options);
     ("email", PString <$> lc_email options)].

Definition listCustomers (options : ListCustomersOptions) : Eff St Json :=
  fun '(cache, p) =>
    PluginCache.getOrFetch now_of
      (listCustomers_key options)
      (listCustomers_fetch options)
      (PluginCache.mkOptions TTL.FIVE_MINUTES (cacheDisabled (this p)))
      (cache, p).

Definition getCustomer (customerId : string) : Eff St Json :=
  fun '(cache, p) =>
    PluginCache.getOrFetch now_of
      (createCacheKey "customer" [("id", Some (PString customerId))])
      (request ("/customers/" +:+ customerId) no_options)
      (PluginCache.mkOptions TTL.MINUTE (cacheDisabled (this p)))
      (cache, p).

(** One iteration of the chunk loop: the [try] with its [catch]. *)
Definition submit_chunk (chunk : list Customer.t) (acc : Tally) : Eff (Proc W) Tally :=
  try_catch
    (do! request "/customers"
           (mkRequestOptions (Some "POST") None (Some (CustomersBody chunk)) None) in
     (* Mark all in chunk as success *)
     ret (mkTally (t_results acc ++ map success_row chunk)
                  (t_success acc + length chunk)%nat
                  (t_error acc)))
    (fun error =>
       (* Mark all in chunk as failed *)
       ret (mkTally (t_results acc ++ map (failure_row (message error)) chunk)
                    (t_success acc)
                    (t_error acc + length chunk)%nat)).

(** [for (let i = 0; i < deduped.length; i += chunkSize)], from index [i];
    [fuel] bounds the iterations. *)
Fixpoint chunk_loop (fuel : nat) (deduped : list Customer.t) (i : nat) (acc : Tally)
  : Eff (Proc W) Tally :=
  match fuel with
  | O => ret acc
  | S fuel' =>
      if (i <? length deduped)%nat then
        let chunk := slice deduped i (i + chunkSize) in
        let! acc' := submit_chunk chunk acc in
        chunk_loop fuel' deduped (i + chunkSize) acc'
      else ret acc
  end.

Definition createCustomers (customers : list Customer.t) : Eff St BulkResult :=
  (* Dedupe by email *)
  let deduped := dedupe customers in
  let! acc :=
    lift_snd (chunk_loop (length deduped) deduped 0 (mkTally [] 0 0)) in
  (* Invalidate customer caches after mutation *)
  do! (fun '(cache, p) =>
         (Ok tt, (snd (PluginCache.invalidatePattern customer_pattern cache), p))) in
  ret (mkBulkResult true "create-customers" (t_success acc) (t_error acc) (t_results acc)).

Definition deleteCustomer (email : string) : Eff St DeleteResult :=
  do! lift_snd (request "/customers"
                  (mkRequestOptions (Some "DELETE") None (Some (EmailBody email)) None)) in
  (* Invalidate customer caches after mutation *)
  do! (fun '(cache, p) =>
         (Ok tt, (snd (PluginCache.invalidatePattern customer_pattern cache), p))) in
  ret (mkDeleteResult true "delete-customer" true).

Definition listFeedback_key (options : ListFeedbackOptions) : string :=
  createCacheKey "feedback"
    [("page", PNumber <$> lf_page options);
     ("perPage", PNumber <$> lf_perPage options);
     ("campaignId", PString <$> lf_campaignId options);
     ("since", PString <$> lf_since options);
     ("until", PString <$> lf_until options);
     ("sort", (fun o => PString (SortOrder_toString o)) <$> lf_sort options)].

(** The query parameters of [listFeedback]. *)
Definition listFeedback_params (options : ListFeedbackOptions) : Params :=
  [("page", PNumber <$> lf_page options);
   ("per_page", PNumber <$> lf_perPage options);
   ("campaign_id", PString <$> lf_campaignId options);
   ("created_after", PString <$> lf_since options);
   ("created_before", PString <$> lf_until options);
   ("sort", (fun o => PString (SortOrder_toString o)) <$> lf_sort options)].

(** The fetch function of [listFeedback]. *)
Definition listFeedback_fetch (options : ListFeedbackOptions) : Eff (Proc W) Json :=
  request "/feedback" (mkRequestOptions None (Some (listFeedback_params options)) None None).

Definition listFeedback (options : ListFeedbackOptions) : Eff St Json :=
  fun '(cache, p) =>
    (* Bypass cache when using --since (for polling) *)
    let bypassCache := cacheDisabled (this p) || truthy (lf_since options) in
    PluginCache.getOrFetch now_of
      (listFeedback_key options)
      (listFeedback_fetch options)
      (PluginCache.mkOptions (TTL.MINUTE * 2) bypassCache)
      (cache, p).

End Client.

(* ===================================================================== *)
(** * A scripted host *)
(* ===================================================================== *)

(** A world for running the client: a clock and the replies the network
    will give, in order.  Each request takes the next reply and advances
    the clock by [tick]; once the script is used up the network hangs. *)
Record Script := mkScript {
  s_clock : Z;
  s_tick : Z;
  s_replies : list NetReply;
}.

#[global] Instance Script_Host : Host Script := {|
  Date_now := s_clock;
  network := fun _ w =>
    match s_replies w with
    | [] => (Hangs, mkScript (s_clock w + s_tick w) (s_tick w) [])
    | r :: rest => (r, mkScript (s_clock w + s_tick w) (s_tick w) rest)
    end;
|}.

(** A response with the given status, headers and body, delivered at once. *)
Definition reply (st : Z) (h : Headers) (body : string) (j : option Json) : NetReply :=
  Responds 5 (mkResponse st h body j 5).

Definition ok_reply (j : Json) : NetReply := reply 200 [] "" (Some j).

(** A process at time [t] with the given script and a fresh client. *)
Definition boot (t : Z) (replies : list NetReply) : Proc Script :=
  mkProc (mkScript t 10 replies) [] (new_RetentlyClient "key").

Definition customer_of (e : option string) (first : option string) : Customer.t :=
  Customer.mk None e first None None None None None None.

(** [n] customers with the distinct addresses [u<n-1>@x.com] ... [u0@x.com]. *)
Fixpoint customers_n (n : nat) : list Customer.t :=
  match n with
  | O => []
  | S k => customer_of (Some ("u" +:+ Z_toString (Z.of_nat k) +:+ "@x.com")) None
             :: customers_n k
  end.

(** The request [request endpoint options] puts on the wire for a client. *)
Definition wire_request (c : RetentlyClient) (endpoint : string) (options : RequestOptions)
  : FetchRequest :=
  let method := default "GET" (opt_method options) in
  mkFetchRequest
    (mkURL (baseUrl c +:+ endpoint)
       (flat_map (fun kv =>
          match snd kv with
          | Some value => [(fst kv, String_of value)]
          | None => []
          end) (default [] (opt_params options))))
    method
    [("X-Api-Key", config_apiKey c);
     ("Content-Type", "application/json");
     ("Accept", "application/json")]
    (match opt_body options with
     | Some b => if negb (String.eqb method "GET") then Some b else None
     | None => None
     end).

(** The timer of a request fires before the network settles. *)
Definition times_out (timeout : Z) (r : NetReply) : Prop :=
  match r with
  | Responds latency _ => timeout < latency
  | Fails latency _ => timeout < latency
  | Hangs => True
  end.

(** The client after a response with headers [h] has been processed. *)
Definition with_rate_limit (h : Headers) (c : RetentlyClient) : RetentlyClient :=
  {| baseUrl := baseUrl c;
     config_apiKey := config_apiKey c;
     cacheDisabled := cacheDisabled c;
     lastRateLimitInfo := parseRateLimit h |}.

(** A fetch function instrumented with a counter of its invocations. *)
Definition counted {S V : Type} (f : Eff S V) : Eff (nat * S) V :=
  fun '(n, s) => let '(r, s') := f s in (r, (Datatypes.S n, s')).

(** The cache holds an unexpired entry for [key] at time [t]. *)
Definition is_fresh {V : Type} (c : PluginCache.t V) (key : string) (t : Z) : bool :=
  match PluginCache.store c !! key with
  | Some e => t <? PluginCache.expiresAt e
  | None => false
  end.

(** The successive values of [deduped.slice(i, i + chunkSize)]. *)
Fixpoint chunks_from {A : Type} (fuel : nat) (l : list A) : list (list A) :=
  match fuel with
  | O => []
  | S fuel' =>
      match l with
      | [] => []
      | _ :: _ => take chunkSize l :: chunks_from fuel' (drop chunkSize l)
      end
  end.

Definition chunks {A : Type} (l : list A) : list (list A) := chunks_from (length l) l.

(** The options of the call that submits one chunk. *)
Definition post_customers (chunk : list Customer.t) : RequestOptions :=
  mkRequestOptions (Some "POST") None (Some (CustomersBody chunk)) None.

(** The chunks submitted one after the other, with the outcome of each
    call. *)
Fixpoint outcomes {W : Type} `{Host W} (cs : list (list Customer.t)) (p : Proc W)
  : list (Result Json) * Proc W :=
  match cs with
  | [] => ([], p)
  | chunk :: rest =>
      let '(r, p1) := request "/customers" (post_customers chunk) p in
      let '(rs, p2) := outcomes rest p1 in
      (r :: rs, p2)
  end.

(** The rows a chunk contributes, given the outcome of its call. *)
Definition rows_of (chunk : list Customer.t) (r : Result Json) : list ResultRow :=
  match r with
  | Ok _ => map success_row chunk
  | Throw e => map (failure_row (message e)) chunk
  end.

Definition succeeded {A : Type} (r : Result A) : bool :=
  match r with Ok _ => true | Throw _ => false end.

(** The number of entries in the chunks whose outcome satisfies [sel]. *)
Fixpoint count_entries (sel : Result Json -> bool)
  (cs : list (list Customer.t)) (rs : list (Result Json)) : nat :=
  match cs, rs with
  | chunk :: cs', r :: rs' =>
      ((if sel r then length chunk else 0) + count_entries sel cs' rs')%nat
  | _, _ => 0%nat
  end.

(** The lower-cased address by which [createCustomers] identifies an entry. *)
Definition email_key (c : Customer.t) : string :=
  toLowerCase (default "" (Customer.email c)).

(** A cache holding a customers-list entry and a feedback entry. *)
Definition sample_cache : PluginCache.t Json :=
  PluginCache.with_store
    (fun m => <["customers:{}" := PluginCache.mkEntry (JStr "list") 300000]>
                (<["feedback:{}" := PluginCache.mkEntry (JStr "answers") 120000]> m))
    initial_cache.

(** Two parameter objects with the same defined properties. *)
Definition same_defined (p q : Params) : Prop :=
  forall (k : string) (v : ParamValue), (k, Some v) ∈ p <-> (k, Some v) ∈ q.

(** The characters [escape] puts a backslash before. *)
Definition special (c : ascii) : bool := Ascii.eqb c dquote || Ascii.eqb c backslash.

(** The characters of a rendered integer: the digits and the minus sign. *)
Definition numeric (c : ascii) : bool :=
  match digit_of c with
  | Some _ => true
  | None => Ascii.eqb c "-"
  end.

Fixpoint all_chars (P : ascii -> bool) (s : string) : bool :=
  match s with
  | EmptyString => true
  | String c r => P c && all_chars P r
  end.

(** What follows a property in [stringify_entries]. *)
Definition entries_tail (r : list (string * ParamValue)) : string :=
  match r with
  | [] => "}"
  | _ :: _ => "," +:+ stringify_entries r
  end.

(** A delimiter that ends a value: the comma or the closing brace. *)
Definition is_delimiter (c : ascii) : Prop := c = ","%char \/ c = "}"%char.

(** Time passing between two calls of the scripted process. *)
Definition advance (ms : Z) (st : PluginCache.t Json * Proc Script)
  : PluginCache.t Json * Proc Script :=
  let w := world (snd st) in
  (fst st,
   mkProc (mkScript (s_clock w + ms) (s_tick w) (s_replies w))
     (wire (snd st)) (this (snd st))).

(** The entry has an address the [filter] callback accepts. *)
Definition has_email (c : Customer.t) : bool := truthy (Customer.email c).

(* ===================================================================== *)
(** * The remaining read operations and the constructor *)
(* ===================================================================== *)

Section MoreClient.
Context {W : Type} `{Host W}.

Definition getFeedback (feedbackId : string) : Eff St Json :=
  fun '(cache, p) =>
    PluginCache.getOrFetch now_of
      (createCacheKey "feedback_detail" [("id", Some (PString feedbackId))])
      (request ("/feedback/" +:+ feedbackId) no_options)
      (PluginCache.mkOptions TTL.MINUTE (cacheDisabled (this p)))
      (cache, p).

Definition getNpsScore : Eff St Json :=
  fun '(cache, p) =>
    PluginCache.getOrFetch now_of "nps_score"
      (request "/nps/score" no_options)
      (PluginCache.mkOptions TTL.HOUR (cacheDisabled (this p)))
      (cache, p).

Definition getCsatScore : Eff St Json :=
  fun '(cache, p) =>
    PluginCache.getOrFetch now_of "csat_score"
      (request "/csat/score" no_options)
      (PluginCache.mkOptions TTL.HOUR (cacheDisabled (this p)))
      (cache, p).

Definition getCesScore : Eff St Json :=
  fun '(cache, p) =>
    PluginCache.getOrFetch now_of "ces_score"
      (request "/ces/score" no_options)
      (PluginCache.mkOptions TTL.HOUR (cacheDisabled (this p)))
      (cache, p).

(** The fetch function of [listCampaigns]. *)
Definition listCampaigns_fetch (limit : option Z) : Eff (Proc W) Json :=
  request "/campaigns"
    (mkRequestOptions None (Some [("per_page", PNumber <$> limit)]) None None).

Definition listCampaigns (limit : option Z) : Eff St Json :=
  fun '(cache, p) =>
    PluginCache.getOrFetch now_of
      (createCacheKey "campaigns" [("limit", PNumber <$> limit)])
      (listCampaigns_fetch limit)
      (PluginCache.mkOptions TTL.FIFTEEN_MINUTES (cacheDisabled (this p)))
      (cache, p).

(** The fetch function of [listCompanies]. *)
Definition listCompanies_fetch (page perPage : option Z) : Eff (Proc W) Json :=
  request "/companies"
    (mkRequestOptions None
       (Some [("page", PNumber <$> page); ("per_page", PNumber <$> perPage)])
       None None).

Definition listCompanies (page perPage : option Z) : Eff St Json :=
  fun '(cache, p) =>
    PluginCache.getOrFetch now_of
      (createCacheKey "companies"
         [("page", PNumber <$> page); ("perPage", PNumber <$> perPage)])
      (listCompanies_fetch page perPage)
      (PluginCache.mkOptions TTL.FIFTEEN_MINUTES (cacheDisabled (this p)))
      (cache, p).

End MoreClient.

(** What reading and parsing [config.json] gives the constructor:
    [readFileSync] throws an error carrying a [code], or [JSON.parse] (or
    the access to its result) throws an error without one, or the document
    is parsed and [configFile.retently?.apiKey] is a string or [undefined]. *)
Inductive ConfigFile :=
| ReadError (code : option string) (e : Error)
| ParseError (e : Error)
| ConfigJson (apiKey : option string).

Definition missingKeyMessage : string := "Missing required config: retently.apiKey".

Definition configNotFoundMessage : string :=
  "config.json not found. Ensure credential symlink exists: " +:+
  "ln -s YOUR_CREDENTIALS_PATH/configs/retently-feedback-manager.json config.json".

(** [constructor()]: the [try] around reading the configuration and its
    [catch], which rewrites the error of a missing file and rethrows every
    other one. *)
Definition constructor (f : ConfigFile) : Result RetentlyClient :=
  let catch (code : option string) (error : Error) : Result RetentlyClient :=
    if bool_decide (code = Some "ENOENT")
    then Throw (newError configNotFoundMessage)
    else Throw error in
  match f with
  | ReadError code e => catch code e
  | ParseError e => catch None e
  | ConfigJson apiKey =>
      if negb (truthy apiKey)
      then catch None (newError missingKeyMessage)
      else Ok (new_RetentlyClient (default "" apiKey))
  end.

(** The number of rows of a result list with the given success flag. *)
Definition count_rows (flag : bool) (rows : list ResultRow) : nat :=
  length (List.filter (fun row => Bool.eqb (row_success row) flag) rows).

(** The character occurs in the string. *)
Fixpoint mentions (c : ascii) (s : string) : bool :=
  match s with
  | EmptyString => false
  | String x r => Ascii.eqb x c || mentions c r
  end.

(* ===================================================================== *)
(** * Properties of the request handler *)
(* ===================================================================== *)

Section RequestFacts.
Context {W : Type} `{Host W}.

Lemma request_unfold (endpoint : string) (options : RequestOptions) (p : Proc W) :
  request endpoint options p =
  let timeout := default 30000 (opt_timeout options) in
  let rethrow (e : Error) :=
    if String.eqb (name e) "AbortError"
    then newError (timeoutMessage timeout endpoint) else e in
  match fetch (wire_request (this p) endpoint options) timeout p with
  | (Throw e, p1) => (Throw (rethrow e), p1)
  | (Ok r, p1) =>
      let p2 := mkProc (world p1) (wire p1) (with_rate_limit (headers r) (this p1)) in
      if status r =? 429 then
        (Throw (newError (rateLimitMessage
                            (or_else (Headers_get (headers r) "Retry-After") "60")
                            (parseRateLimit (headers r)))), p2)
      else if negb (ok r) then
        if timeout <? bodyAt r
        then (Throw (newError (timeoutMessage timeout endpoint)), p2)
        else (Throw (newError (apiErrorMessage (status r) (text r))), p2)
      else
        match json r with
        | Some j => (Ok j, p2)
        | None => (Throw SyntaxError, p2)
        end
  end.
Proof.
  unfold request, try_catch, bind, get, wire_request. cbn.
  destruct (fetch _ _ p) as [[r|e] p1]; cbn.
  - destruct (status r =? 429); cbn; [reflexivity|].
    destruct (negb (ok r)); cbn.
    + unfold Response_text. destruct (_ <? bodyAt r); reflexivity.
    + unfold Response_json. destruct (json r); reflexivity.
  - unfold throw. destruct (String.eqb _ _); reflexivity.
Qed.

Lemma fetch_times_out (req : FetchRequest) (timeout : Z) (p : Proc W) reply w' :
  network req (world p) = (reply, w') ->
  times_out timeout reply ->
  fetch req timeout p = (Throw AbortError, mkProc w' (wire p ++ [req]) (this p)).
Proof.
  intros Hnet Hout. unfold fetch. rewrite Hnet.
  destruct reply as [latency r|latency e|]; cbn in Hout; [| |reflexivity].
  - apply Z.ltb_lt in Hout. now rewrite Hout.
  - apply Z.ltb_lt in Hout. now rewrite Hout.
Qed.

Lemma fetch_responds (req : FetchRequest) (timeout : Z) (p : Proc W) latency r w' :
  network req (world p) = (Responds latency r, w') ->
  latency <= timeout ->
  fetch req timeout p = (Ok r, mkProc w' (wire p ++ [req]) (this p)).
Proof.
  intros Hnet Hle. unfold fetch. rewrite Hnet.
  destruct (timeout <? latency) eqn:E; [|reflexivity].
  apply Z.ltb_lt in E. lia.
Qed.

(** Every path through [request] issues exactly one network call. *)
Lemma request_wire (endpoint : string) (options : RequestOptions) (p : Proc W) :
  wire (snd (request endpoint options p)) =
  wire p ++ [wire_request (this p) endpoint options].
Proof.
  rewrite request_unfold. cbn zeta. unfold fetch.
  destruct (network _ _) as [reply w'].
  destruct reply as [latency r|latency e|]; cbn;
    repeat (match goal with |- context [if ?b then _ else _] => destruct b end; cbn);
    try reflexivity.
  destruct (json r); reflexivity.
Qed.

(** [request] leaves the configuration of the client alone. *)
Lemma request_config (endpoint : string) (options : RequestOptions) (p : Proc W) :
  let c' := this (snd (request endpoint options p)) in
  baseUrl c' = baseUrl (this p) /\
  config_apiKey c' = config_apiKey (this p) /\
  cacheDisabled c' = cacheDisabled (this p).
Proof.
  rewrite request_unfold. cbn zeta. unfold fetch.
  destruct (network _ _) as [reply w'].
  destruct reply as [latency r|latency e|]; cbn;
    repeat (match goal with |- context [if ?b then _ else _] => destruct b end; cbn);
    auto.
  destruct (json r); cbn; auto.
Qed.

(** Without a response the rate-limit snapshot stays as it was. *)
Lemma request_no_response_keeps_rate_limit
  (endpoint : string) (options : RequestOptions) (p : Proc W) reply w' :
  network (wire_request (this p) endpoint options) (world p) = (reply, w') ->
  times_out (default 30000 (opt_timeout options)) reply ->
  getRateLimitInfo (snd (request endpoint options p)) = getRateLimitInfo p.
Proof.
  intros Hnet Hout. rewrite request_unfold. cbn zeta.
  now rewrite (fetch_times_out _ _ _ _ _ Hnet Hout).
Qed.

End RequestFacts.

(** ** Strings *)

Lemma append_nil_l (s : string) : EmptyString +:+ s = s.
Proof. reflexivity. Qed.

Lemma append_cons (x : ascii) (a b : string) : String x a +:+ b = String x (a +:+ b).
Proof. reflexivity. Qed.

Lemma append_nil_r (s : string) : s +:+ EmptyString = s.
Proof. induction s as [|x s IH]; [reflexivity | now rewrite append_cons, IH]. Qed.

Lemma append_assoc (a b c : string) : (a +:+ b) +:+ c = a +:+ b +:+ c.
Proof.
  induction a as [|x a IH]; [reflexivity | now rewrite !append_cons, IH].
Qed.

Lemma includes_refl (s : string) : includes s s.
Proof.
  exists EmptyString, EmptyString.
  now rewrite append_nil_l, append_nil_r.
Qed.

Lemma includes_app_l (a b sub : string) : includes a sub -> includes (a +:+ b) sub.
Proof.
  intros (pre & post & ->). exists pre, (post +:+ b).
  now rewrite !append_assoc.
Qed.

Lemma includes_app_r (a b sub : string) : includes b sub -> includes (a +:+ b) sub.
Proof.
  intros (pre & post & ->). exists (a +:+ pre), post.
  now rewrite !append_assoc.
Qed.

Lemma includes_empty (s : string) : includes s EmptyString.
Proof. exists EmptyString, s. reflexivity. Qed.

Create HintDb includes.
#[global] Hint Resolve includes_refl includes_app_l includes_app_r includes_empty : includes.

(** ** Rate-limit headers *)

Lemma rate_field_None (h : Headers) (field : string) :
  rate_field h field = None <->
  Headers_get h field = None \/ Headers_get h field = Some EmptyString.
Proof.
  unfold rate_field.
  destruct (Headers_get h field) as [[|c v]|]; cbn; split; auto; try discriminate.
  intros [?|?]; discriminate.
Qed.

Lemma rate_field_Some (h : Headers) (field v : string) :
  Headers_get h field = Some v -> v <> EmptyString ->
  rate_field h field = Some (parseInt v).
Proof.
  unfold rate_field. intros -> Hv. destruct v; [congruence | reflexivity].
Qed.

Lemma or_else_Some (v d : string) : v <> EmptyString -> or_else (Some v) d = v.
Proof. destruct v; [congruence | reflexivity]. Qed.

Section RequestClaims.
Context {W : Type} `{Host W}.

(** C8 (as amended): after every HTTP response, whatever its status, the
    stored [RateLimitInfo] is the one parsed from the rate-limit headers of
    that response; a field is [null] exactly when its header is absent or
    carries the empty string, and otherwise is [parseInt] of the header;
    a new client has all three fields [null]. *)
Theorem rate_limit_info_overwritten
  (endpoint : string) (options : RequestOptions) (p : Proc W)
  (latency : Z) (r : Response) (w' : W) :
  network (wire_request (this p) endpoint options) (world p) = (Responds latency r, w') ->
  latency <= default 30000 (opt_timeout options) ->
  let info := getRateLimitInfo (snd (request endpoint options p)) in
  let absent_or_empty (field : string) :=
    Headers_get (headers r) field = None \/
    Headers_get (headers r) field = Some EmptyString in
  let parsed (field : string) (x : option Number) :=
    forall v, Headers_get (headers r) field = Some v -> v <> EmptyString ->
              x = Some (parseInt v) in
  info = parseRateLimit (headers r) /\
  (remaining info = None <-> absent_or_empty "X-RateLimit-Remaining") /\
  (limit info = None <-> absent_or_empty "X-RateLimit-Limit") /\
  (reset info = None <-> absent_or_empty "X-RateLimit-Reset") /\
  parsed "X-RateLimit-Remaining" (remaining info) /\
  parsed "X-RateLimit-Limit" (limit info) /\
  parsed "X-RateLimit-Reset" (reset info) /\
  (forall apiKey : string,
     lastRateLimitInfo (new_RetentlyClient apiKey) = mkRateLimitInfo None None None).
Proof.
  intros Hnet Hle info absent_or_empty parsed.
  assert (Hinfo : info = parseRateLimit (headers r)).
  { subst info. rewrite request_unfold. cbn zeta.
    rewrite (fetch_responds _ _ _ _ _ _ Hnet Hle). cbn.
    destruct (status r =? 429); [reflexivity|].
    destruct (negb (ok r)).
    - destruct (_ <? bodyAt r); reflexivity.
    - destruct (json r); reflexivity. }
  rewrite Hinfo. unfold parsed, absent_or_empty. cbn.
  repeat split; try apply rate_field_None; try apply rate_field_None;
    auto using rate_field_Some.
  all: apply rate_field_None.
Qed.

(** C6: a response with status 429 makes [request] fail, after that single
    network call, with a message that contains the [Retry-After] header
    value (["60"] when the header is absent) and the remaining and limit
    counts just parsed from the rate-limit headers. *)
Theorem request_rate_limited
  (endpoint : string) (options : RequestOptions) (p : Proc W)
  (latency : Z) (r : Response) (w' : W) :
  network (wire_request (this p) endpoint options) (world p) = (Responds latency r, w') ->
  latency <= default 30000 (opt_timeout options) ->
  status r = 429 ->
  let retryAfter := Headers_get (headers r) "Retry-After" in
  let info := parseRateLimit (headers r) in
  exists msg : string,
    request endpoint options p =
      (Throw (newError msg),
       mkProc w' (wire p ++ [wire_request (this p) endpoint options])
         (with_rate_limit (headers r) (this p))) /\
    (forall v, retryAfter = Some v -> includes msg v) /\
    (retryAfter = None -> includes msg "60") /\
    (retryAfter = Some "30" -> includes msg "30") /\
    includes msg
      ("Remaining: " +:+ nullable_toString (remaining info) +:+ "/" +:+
       nullable_toString (limit info)).
Proof.
  intros Hnet Hle Hst retryAfter info.
  exists (rateLimitMessage (or_else retryAfter "60") info).
  assert (Hv : forall v, retryAfter = Some v ->
                         includes (rateLimitMessage (or_else retryAfter "60") info) v).
  { intros v ->. destruct v as [|c v]; [apply includes_empty|].
    rewrite or_else_Some by discriminate.
    unfold rateLimitMessage. auto with includes. }
  split; [|split; [|split; [|split]]].
  - rewrite request_unfold. cbn zeta.
    rewrite (fetch_responds _ _ _ _ _ _ Hnet Hle). cbn.
    rewrite Hst. reflexivity.
  - exact Hv.
  - intros ->. unfold rateLimitMessage. cbn. auto with includes.
  - apply Hv.
  - unfold rateLimitMessage. auto 7 with includes.
Qed.

(** C7: [request] runs under a timer of [timeout] ms, 30000 when the
    caller gives none; when the timer fires before the network settles the
    pending [fetch] is aborted and [request] fails with the message
    "Request timeout after <timeout>ms: <endpoint>". *)
Theorem request_timeout
  (endpoint : string) (options : RequestOptions) (p : Proc W)
  (reply : NetReply) (w' : W) :
  let timeout := default 30000 (opt_timeout options) in
  let req := wire_request (this p) endpoint options in
  network req (world p) = (reply, w') ->
  times_out timeout reply ->
  let msg := "Request timeout after " +:+ Z_toString timeout +:+ "ms: " +:+ endpoint in
  (forall method params body,
     request endpoint (mkRequestOptions method params body None) p =
     request endpoint (mkRequestOptions method params body (Some 30000)) p) /\
  fetch req timeout p = (Throw AbortError, mkProc w' (wire p ++ [req]) (this p)) /\
  request endpoint options p =
    (Throw (newError msg), mkProc w' (wire p ++ [req]) (this p)) /\
  includes msg (Z_toString timeout +:+ "ms") /\
  includes msg endpoint.
Proof.
  intros timeout req Hnet Hout msg.
  split; [|split; [|split; [|split]]].
  - reflexivity.
  - exact (fetch_times_out _ _ _ _ _ Hnet Hout).
  - rewrite request_unfold. cbn zeta. fold timeout req.
    rewrite (fetch_times_out _ _ _ _ _ Hnet Hout). reflexivity.
  - subst msg. exists "Request timeout after ", (": " +:+ endpoint).
    rewrite append_assoc. reflexivity.
  - subst msg. auto with includes.
Qed.

End RequestClaims.

(** Concrete runs of the request handler. *)

Lemma rate_limit_info_overwritten_witness :
  getRateLimitInfo
    (snd (request "/customers" no_options
            (boot 0 [reply 503 [("X-RateLimit-Remaining", "149");
                                ("x-ratelimit-limit", "150")] "down" None])))
  = mkRateLimitInfo (Some (Int 149)) (Some (Int 150)) None.
Proof.
  exact (proj1 (rate_limit_info_overwritten "/customers" no_options
                  (boot 0 [reply 503 [("X-RateLimit-Remaining", "149");
                                      ("x-ratelimit-limit", "150")] "down" None])
                  5 _ _ eq_refl ltac:(cbn; lia))).
Defined.

(** A response whose [X-RateLimit-Remaining] header is present with an
    empty value leaves [remaining] at [null]. *)
Lemma rate_limit_null_with_header_present :
  Headers_get [("X-RateLimit-Remaining", EmptyString); ("X-RateLimit-Limit", "150")]
    "X-RateLimit-Remaining" = Some EmptyString /\
  getRateLimitInfo
    (snd (request "/customers" no_options
            (boot 0 [reply 200 [("X-RateLimit-Remaining", EmptyString);
                                ("X-RateLimit-Limit", "150")] "" (Some JNull)])))
  = mkRateLimitInfo None (Some (Int 150)) None.
Proof. split; reflexivity. Qed.

Lemma request_rate_limited_witness :
  exists msg : string,
    fst (request "/feedback" no_options
           (boot 0 [reply 429 [("Retry-After", "30"); ("X-RateLimit-Remaining", "0");
                               ("X-RateLimit-Limit", "150")] "" None]))
    = Throw (newError msg) /\
    includes msg "30" /\ includes msg "Remaining: 0/150".
Proof.
  destruct (request_rate_limited (H := Script_Host) "/feedback" no_options
              (boot 0 [reply 429 [("Retry-After", "30"); ("X-RateLimit-Remaining", "0");
                                  ("X-RateLimit-Limit", "150")] "" None])
              5
              (mkResponse 429 [("Retry-After", "30"); ("X-RateLimit-Remaining", "0");
                               ("X-RateLimit-Limit", "150")] "" None 5)
              (mkScript 10 10 []) eq_refl ltac:(cbn; lia) eq_refl)
    as (msg & Hreq & _ & _ & H30 & Hrem).
  exists msg. split; [|split].
  - now rewrite Hreq.
  - apply H30. reflexivity.
  - exact Hrem.
Defined.

Lemma request_timeout_witness :
  fst (request "/customers" no_options
         (boot 0 [Responds 30001 (mkResponse 200 [] "" (Some JNull) 30001)]))
  = Throw (newError "Request timeout after 30000ms: /customers").
Proof.
  pose proof (request_timeout (H := Script_Host) "/customers" no_options
                (boot 0 [Responds 30001 (mkResponse 200 [] "" (Some JNull) 30001)])
                (Responds 30001 (mkResponse 200 [] "" (Some JNull) 30001))
                (mkScript 10 10 []) eq_refl ltac:(cbn; lia)) as (_ & _ & Hreq & _).
  now rewrite Hreq.
Defined.

(* ===================================================================== *)
(** * Properties of the cache *)
(* ===================================================================== *)

Section CacheFacts.
Context {V S : Type} (now : S -> Z).

Import PluginCache.

Lemma getOrFetch_bypass (key : string) (f : Eff S V) (opts : Options) (c : t V) (s : S) :
  bypassCache opts = true \/ enabled c = false ->
  getOrFetch now key f opts (c, s) = (fst (f s), (c, snd (f s))).
Proof.
  intros Hb. unfold getOrFetch.
  assert (bypassCache opts || negb (enabled c) = true) as ->.
  { destruct Hb as [-> | ->]; [reflexivity | apply orb_true_r]. }
  unfold lift_snd. now destruct (f s).
Qed.

Lemma getOrFetch_hit (key : string) (f : Eff S V) (opts : Options) (c : t V) (s : S)
  (e : CacheEntry V) :
  bypassCache opts = false -> enabled c = true ->
  store c !! key = Some e -> now s < expiresAt e ->
  getOrFetch now key f opts (c, s) = (Ok (value e), (record_hit c, s)).
Proof.
  intros Hb He Hk Hlt. unfold getOrFetch. rewrite Hb, He, Hk. cbn.
  apply Z.ltb_lt in Hlt. now rewrite Hlt.
Qed.

Lemma getOrFetch_miss (key : string) (f : Eff S V) (opts : Options) (c : t V) (s : S) :
  bypassCache opts = false -> enabled c = true ->
  is_fresh c key (now s) = false ->
  getOrFetch now key f opts (c, s) =
  match f s with
  | (Ok v, s') =>
      (Ok v, (with_store <[key := mkEntry v (now s' + ttl opts)]> (record_miss c), s'))
  | (Throw e, s') => (Throw e, (with_store (delete key) (record_miss c), s'))
  end.
Proof.
  intros Hb He Hf. unfold getOrFetch, is_fresh in *. rewrite Hb, He. cbn.
  destruct (store c !! key) as [e|] eqn:Hk.
  - rewrite Hf. destruct (f s) as [[v|err] s']; [|reflexivity].
    unfold with_store, record_miss. cbn. now rewrite insert_delete_eq.
  - destruct (f s) as [[v|err] s']; [reflexivity|].
    unfold with_store, record_miss. cbn. now rewrite delete_id.
Qed.

Lemma is_fresh_stored (c : t V) (key : string) (v : V) (t0 t1 : Z) :
  store c !! key = Some (mkEntry v t1) ->
  is_fresh c key t0 = (t0 <? t1).
Proof. unfold is_fresh. now intros ->. Qed.

End CacheFacts.

Section CacheClaims.
Context {V S : Type} (now : S -> Z).

Import PluginCache.

(** C1: with the cache enabled and no bypass, a first call that has to
    fetch stores the value with [expiresAt = now + T]; a second call
    within [T] of the store returns the stored value and does not invoke
    the fetch function (which has run exactly once); a call made once [T]
    has elapsed since the store invokes the fetch function again and
    stores the new result with [expiresAt = now + T]. *)
Theorem getOrFetch_once_per_ttl_window
  (key : string) (f : Eff S V) (T : Z) (c : t V) (n : nat)
  (s0 s1 s2 s3 s4 : S) (v v' : V) :
  enabled c = true ->
  is_fresh c key (now s0) = false ->
  f s0 = (Ok v, s1) ->
  now s2 < now s1 + T ->
  now s1 + T <= now s3 ->
  f s3 = (Ok v', s4) ->
  let call := getOrFetch (fun ns => now (snd ns)) key (counted f) (mkOptions T false) in
  exists c1 c2 c3 : t V,
    call (c, (n, s0)) = (Ok v, (c1, (Datatypes.S n, s1))) /\
    store c1 !! key = Some (mkEntry v (now s1 + T)) /\
    call (c1, (Datatypes.S n, s2)) = (Ok v, (c2, (Datatypes.S n, s2))) /\
    store c2 = store c1 /\
    call (c2, (Datatypes.S n, s3)) = (Ok v', (c3, (Datatypes.S (Datatypes.S n), s4))) /\
    store c3 !! key = Some (mkEntry v' (now s4 + T)).
Proof.
  intros Hen Hfresh Hf0 Hin Hout Hf3 call.
  set (c1 := with_store <[key := mkEntry v (now s1 + T)]> (record_miss c)).
  set (c2 := record_hit c1).
  set (c3 := with_store <[key := mkEntry v' (now s4 + T)]> (record_miss c2)).
  assert (Hk1 : store c1 !! key = Some (mkEntry v (now s1 + T))).
  { subst c1. cbn. apply lookup_insert_eq. }
  assert (Hen1 : enabled c1 = true) by exact Hen.
  exists c1, c2, c3. repeat split.
  - subst call. rewrite getOrFetch_miss by (cbn; auto).
    cbn. now rewrite Hf0.
  - exact Hk1.
  - subst call.
    apply (getOrFetch_hit (fun ns => now (snd ns)) key (counted f) (mkOptions T false)
             c1 (Datatypes.S n, s2) (mkEntry v (now s1 + T)));
      [reflexivity | exact Hen1 | exact Hk1 | exact Hin].
  - subst call. rewrite getOrFetch_miss.
    + cbn. now rewrite Hf3.
    + reflexivity.
    + exact Hen1.
    + cbn [snd]. rewrite (is_fresh_stored c2 key v _ (now s1 + T)) by exact Hk1.
      apply Z.ltb_ge. exact Hout.
  - subst c3. cbn. apply lookup_insert_eq.
Qed.

End CacheClaims.

Section InvalidationFacts.
Context {V : Type}.

Import PluginCache.

(** The entries [invalidatePattern] removes and those it keeps. *)
Lemma invalidatePattern_spec (regex : string -> bool) (c : t V) :
  let count := fst (invalidatePattern regex c) in
  let c' := snd (invalidatePattern regex c) in
  (forall k, regex k = true -> store c' !! k = None) /\
  (forall k, regex k = false -> store c' !! k = store c !! k) /\
  (count + size (store c') = size (store c))%nat /\
  hits c' = hits c /\ misses c' = misses c /\ enabled c' = enabled c.
Proof.
  cbn. repeat split.
  - intros k Hk. apply map_lookup_filter_None. right. intros x _. cbn. congruence.
  - intros k Hk. destruct (store c !! k) as [x|] eqn:E.
    + apply map_lookup_filter_Some. auto.
    + apply map_lookup_filter_None. auto.
  - rewrite <- (map_filter_union_complement (fun kv => regex (fst kv) = true) (store c)) at 3.
    rewrite map_size_disj_union by apply map_disjoint_filter_complement.
    f_equal. f_equal. apply map_filter_ext. intros i x _. cbn.
    destruct (regex i); split; congruence.
Qed.

End InvalidationFacts.

Lemma getOrFetch_once_per_ttl_window_witness :
  let f : Eff Z nat := fun t => (Ok (Z.to_nat t), t + 10) in
  let call :=
    PluginCache.getOrFetch (fun ns : nat * Z => snd ns) "k" (counted f)
      (PluginCache.mkOptions 100 false) in
  exists c1 c2 c3 : PluginCache.t nat,
    call (PluginCache.new "ns" 0, (0%nat, 0)) = (Ok 0%nat, (c1, (1%nat, 10))) /\
    PluginCache.store c1 !! "k" = Some (PluginCache.mkEntry 0%nat 110) /\
    call (c1, (1%nat, 50)) = (Ok 0%nat, (c2, (1%nat, 50))) /\
    PluginCache.store c2 = PluginCache.store c1 /\
    call (c2, (1%nat, 110)) = (Ok 110%nat, (c3, (2%nat, 120))) /\
    PluginCache.store c3 !! "k" = Some (PluginCache.mkEntry 110%nat 220).
Proof.
  exact (getOrFetch_once_per_ttl_window (fun t : Z => t) "k"
           (fun t => (Ok (Z.to_nat t), t + 10)) 100 (PluginCache.new "ns" 0) 0
           0 10 50 110 120 0%nat 110%nat
           eq_refl eq_refl eq_refl ltac:(cbn; lia) ltac:(cbn; lia) eq_refl).
Defined.

(* ===================================================================== *)
(** * Properties of the bulk create *)
(* ===================================================================== *)

(** ** Chunks *)

Lemma chunkSize_pos : (0 < chunkSize)%nat.
Proof. unfold chunkSize. lia. Qed.

Lemma slice_chunk {A : Type} (l : list A) (i : nat) :
  slice l i (i + chunkSize) = take chunkSize (drop i l).
Proof. unfold slice. f_equal. lia. Qed.

Lemma chunks_from_nonempty {A : Type} (fuel : nat) (x : A) (l : list A) :
  chunks_from (Datatypes.S fuel) (x :: l) =
  take chunkSize (x :: l) :: chunks_from fuel (drop chunkSize (x :: l)).
Proof. reflexivity. Qed.

Lemma chunks_from_concat {A : Type} (fuel : nat) (l : list A) :
  (length l <= fuel)%nat -> concat (chunks_from fuel l) = l.
Proof.
  revert l. induction fuel as [|fuel IH]; intros l Hlen.
  - destruct l; [reflexivity | cbn in Hlen; lia].
  - destruct l as [|x l]; [reflexivity|].
    rewrite chunks_from_nonempty. cbn [concat].
    rewrite IH; [apply take_drop|].
    rewrite length_drop. pose proof chunkSize_pos. cbn [length] in *. lia.
Qed.

Lemma chunks_from_lookup {A : Type} (fuel : nat) (l : list A) (i : nat) :
  (length l <= fuel)%nat ->
  chunks_from fuel l !! i =
  if decide (i * chunkSize < length l)%nat
  then Some (take chunkSize (drop (i * chunkSize) l))
  else None.
Proof.
  revert l i. induction fuel as [|fuel IH]; intros l i Hlen.
  - destruct l; [|cbn in Hlen; lia].
    cbn. rewrite decide_False by (cbn; lia). reflexivity.
  - destruct l as [|x l].
    { cbn. rewrite decide_False by (cbn; lia). reflexivity. }
    rewrite chunks_from_nonempty. destruct i as [|i].
    + cbn [lookup list_lookup Nat.mul]. rewrite decide_True by (cbn; lia).
      reflexivity.
    + change ((take chunkSize (x :: l) :: chunks_from fuel (drop chunkSize (x :: l)))
                !! Datatypes.S i)
        with (chunks_from fuel (drop chunkSize (x :: l)) !! i).
      rewrite IH.
      2:{ rewrite length_drop. pose proof chunkSize_pos. cbn [length] in *. lia. }
      rewrite length_drop, drop_drop.
      replace (chunkSize + i * chunkSize)%nat with (Datatypes.S i * chunkSize)%nat by lia.
      destruct (decide (i * chunkSize < length (x :: l) - chunkSize)%nat);
        [rewrite decide_True by lia | rewrite decide_False by lia]; reflexivity.
Qed.

Lemma chunks_concat {A : Type} (l : list A) : concat (chunks l) = l.
Proof. apply chunks_from_concat. reflexivity. Qed.

Lemma chunks_lookup {A : Type} (l : list A) (i : nat) :
  chunks l !! i =
  if decide (i * chunkSize < length l)%nat
  then Some (slice l (i * chunkSize) (i * chunkSize + chunkSize))
  else None.
Proof.
  unfold chunks. rewrite chunks_from_lookup by reflexivity.
  now rewrite slice_chunk.
Qed.

Lemma chunks_1500 {A : Type} (l : list A) :
  length l = 1500%nat -> map length (chunks l) = [1000%nat; 500%nat].
Proof.
  intros Hlen.
  assert (Hcs : chunks l = [take chunkSize l; drop chunkSize l]).
  { apply list_eq. intros i. rewrite chunks_lookup, slice_chunk.
    destruct i as [|[|i]].
    - rewrite decide_True by (rewrite Hlen; unfold chunkSize; lia). reflexivity.
    - rewrite decide_True by (rewrite Hlen; unfold chunkSize; lia).
      cbn [lookup list_lookup]. f_equal. rewrite Nat.mul_1_l.
      apply take_ge. rewrite length_drop, Hlen. unfold chunkSize. lia.
    - rewrite decide_False by (rewrite Hlen; unfold chunkSize; lia). reflexivity. }
  rewrite Hcs. cbn [map]. rewrite length_take, length_drop, Hlen.
  unfold chunkSize. repeat f_equal; lia.
Qed.

(** ** De-duplication *)

Lemma dedupe_from_sublist (seen : list string) (l : list Customer.t) :
  sublist (dedupe_from seen l) l.
Proof.
  revert seen. induction l as [|c l IH]; intros seen; cbn.
  - constructor.
  - destruct (negb (truthy (Customer.email c))); [now constructor|].
    destruct (bool_decide _); now constructor.
Qed.

Lemma dedupe_from_has_email (seen : list string) (l : list Customer.t) (c : Customer.t) :
  c ∈ dedupe_from seen l -> has_email c = true.
Proof.
  revert seen. induction l as [|a l IH]; intros seen; cbn.
  - intros Hin. inversion Hin.
  - destruct (truthy (Customer.email a)) eqn:Ha; cbn; [|apply IH].
    destruct (bool_decide _); [apply IH|].
    intros [->|Hin]%elem_of_cons; [exact Ha | eapply IH, Hin].
Qed.

Lemma dedupe_from_keys (seen : list string) (l : list Customer.t) :
  NoDup (map email_key (dedupe_from seen l)) /\
  (forall k, k ∈ map email_key (dedupe_from seen l) -> k ∉ seen).
Proof.
  revert seen. induction l as [|c l IH]; intros seen; cbn.
  - split; [constructor | intros k Hk; inversion Hk].
  - destruct (negb (truthy (Customer.email c))); [apply IH|].
    fold (email_key c).
    destruct (bool_decide (email_key c ∈ seen)) eqn:Hseen; [apply IH|].
    apply bool_decide_eq_false in Hseen.
    destruct (IH (seen ++ [email_key c])) as [Hnd Hout].
    cbn [map]. split.
    + constructor; [|exact Hnd].
      intros Hin. apply (Hout _ Hin). apply elem_of_app. right. now left.
    + intros k [->|Hin]%elem_of_cons; [exact Hseen|].
      intros Hk. apply (Hout _ Hin). apply elem_of_app. now left.
Qed.

Lemma dedupe_from_cons_skip (seen : list string) (a : Customer.t) (l : list Customer.t) :
  has_email a = false -> dedupe_from seen (a :: l) = dedupe_from seen l.
Proof. unfold has_email. intros Ha. cbn. now rewrite Ha. Qed.

Lemma dedupe_from_cons_dup (seen : list string) (a : Customer.t) (l : list Customer.t) :
  has_email a = true -> email_key a ∈ seen ->
  dedupe_from seen (a :: l) = dedupe_from seen l.
Proof.
  unfold has_email. intros Ha Hin. cbn. rewrite Ha. cbn.
  fold (email_key a). now rewrite bool_decide_eq_true_2.
Qed.

Lemma dedupe_from_cons_new (seen : list string) (a : Customer.t) (l : list Customer.t) :
  has_email a = true -> email_key a ∉ seen ->
  dedupe_from seen (a :: l) = a :: dedupe_from (seen ++ [email_key a]) l.
Proof.
  unfold has_email. intros Ha Hout. cbn. rewrite Ha. cbn.
  fold (email_key a). now rewrite bool_decide_eq_false_2.
Qed.

Lemma filter_has_email_cons (a : Customer.t) (l : list Customer.t) :
  List.filter has_email (a :: l) =
  if has_email a then a :: List.filter has_email l else List.filter has_email l.
Proof. reflexivity. Qed.

Lemma dedupe_from_snoc (seen : list string) (l : list Customer.t) (c : Customer.t) :
  dedupe_from seen (l ++ [c]) =
  dedupe_from seen l ++
  (if has_email c &&
      bool_decide (email_key c ∉ seen ++ map email_key (List.filter has_email l))
   then [c] else []).
Proof.
  revert seen. induction l as [|a l IH]; intros seen.
  - change (dedupe_from seen []) with (@nil Customer.t).
    cbn [app List.filter map]. rewrite app_nil_r.
    destruct (has_email c) eqn:Hc; cbn [andb].
    + destruct (decide (email_key c ∈ seen)) as [Hin|Hout].
      * rewrite dedupe_from_cons_dup by assumption.
        rewrite bool_decide_eq_false_2 by auto. reflexivity.
      * rewrite dedupe_from_cons_new by assumption.
        rewrite bool_decide_eq_true_2 by auto. reflexivity.
    + now rewrite dedupe_from_cons_skip.
  - rewrite <- app_comm_cons, filter_has_email_cons.
    destruct (has_email a) eqn:Ha.
    + destruct (decide (email_key a ∈ seen)) as [Hin|Hout].
      * rewrite !dedupe_from_cons_dup by assumption. rewrite IH. f_equal.
        rewrite (bool_decide_ext
                   (email_key c ∉ seen ++ map email_key (List.filter has_email l))
                   (email_key c ∉ seen ++ map email_key (a :: List.filter has_email l)));
          [reflexivity|].
        cbn [map]. rewrite !elem_of_app, elem_of_cons.
        split; intros Hn Hc; apply Hn; [|tauto].
        destruct Hc as [?|[->|?]]; auto.
      * rewrite !dedupe_from_cons_new by assumption. rewrite IH. cbn [app map].
        rewrite <- app_assoc. reflexivity.
    + rewrite !dedupe_from_cons_skip by assumption. apply IH.
Qed.

Lemma dedupe_filter (seen : list string) (l : list Customer.t) :
  dedupe_from seen (List.filter has_email l) = dedupe_from seen l.
Proof.
  revert seen. induction l as [|c l IH]; intros seen; [reflexivity|].
  cbn [List.filter dedupe_from]. unfold has_email at 1.
  destruct (truthy (Customer.email c)) eqn:Hc; cbn [negb]; [|apply IH].
  cbn [dedupe_from]. rewrite Hc. cbn [negb].
  destruct (bool_decide _); [apply IH | now rewrite IH].
Qed.

Lemma dedupe_no_email (l : list Customer.t) :
  Forall (fun c => has_email c = false) l -> dedupe l = [].
Proof.
  unfold dedupe. generalize (@nil string) as seen.
  induction l as [|c l IH]; intros seen Hall; [reflexivity|].
  inversion Hall as [|? ? Hc Hl]; subst. cbn. unfold has_email in Hc.
  rewrite Hc. cbn. now apply IH.
Qed.

(** ** The chunk loop *)

Lemma wire_request_config (c c' : RetentlyClient) (endpoint : string)
  (options : RequestOptions) :
  baseUrl c' = baseUrl c -> config_apiKey c' = config_apiKey c ->
  wire_request c' endpoint options = wire_request c endpoint options.
Proof. unfold wire_request. now intros -> ->. Qed.

Lemma count_entries_total (cs : list (list Customer.t)) (rs : list (Result Json)) :
  length rs = length cs ->
  (count_entries succeeded cs rs + count_entries (fun r => negb (succeeded r)) cs rs
   = length (concat cs))%nat.
Proof.
  revert rs. induction cs as [|chunk cs IH]; intros [|r rs] Hlen;
    try discriminate; [reflexivity|].
  cbn [count_entries concat]. rewrite length_app.
  injection Hlen as Hlen. specialize (IH rs Hlen).
  destruct (succeeded r); cbn [negb]; lia.
Qed.

Lemma count_entries_all_failed (cs : list (list Customer.t)) (rs : list (Result Json)) :
  length rs = length cs ->
  Forall (fun r => succeeded r = false) rs ->
  count_entries succeeded cs rs = 0%nat /\
  count_entries (fun r => negb (succeeded r)) cs rs = length (concat cs).
Proof.
  intros Hlen Hall.
  assert (H0 : count_entries succeeded cs rs = 0%nat).
  { clear Hlen. revert cs. induction Hall as [|r rs Hr _ IH]; intros [|chunk cs];
      try reflexivity.
    cbn [count_entries]. now rewrite Hr, IH. }
  pose proof (count_entries_total cs rs Hlen). lia.
Qed.

Lemma rows_emails (cs : list (list Customer.t)) (rs : list (Result Json)) :
  length rs = length cs ->
  map row_email (concat (zip_with rows_of cs rs)) =
  map (fun c => default "" (Customer.email c)) (concat cs).
Proof.
  revert rs. induction cs as [|chunk cs IH]; intros [|r rs] Hlen;
    try discriminate; [reflexivity|].
  cbn [zip_with concat]. rewrite !map_app. injection Hlen as Hlen.
  rewrite (IH rs Hlen). f_equal.
  destruct r; cbn [rows_of]; rewrite map_map; reflexivity.
Qed.

Section BulkFacts.
Context {W : Type} `{Host W}.

Lemma submit_chunk_spec (chunk : list Customer.t) (acc : Tally) (p : Proc W) :
  submit_chunk chunk acc p =
  let r := fst (request "/customers" (post_customers chunk) p) in
  (Ok (mkTally (t_results acc ++ rows_of chunk r)
         (t_success acc + (if succeeded r then length chunk else 0))
         (t_error acc + (if negb (succeeded r) then length chunk else 0))),
   snd (request "/customers" (post_customers chunk) p)).
Proof.
  unfold submit_chunk, try_catch, bind, ret, post_customers.
  destruct (request _ _ p) as [[j|e] p1]; cbn; now rewrite Nat.add_0_r.
Qed.

Lemma outcomes_cons (chunk : list Customer.t) (cs : list (list Customer.t)) (p : Proc W) :
  outcomes (chunk :: cs) p =
  let rp := request "/customers" (post_customers chunk) p in
  (fst rp :: fst (outcomes cs (snd rp)), snd (outcomes cs (snd rp))).
Proof.
  cbn [outcomes]. destruct (request _ _ p) as [r p1]. cbn.
  now destruct (outcomes cs p1).
Qed.

Lemma outcomes_length (cs : list (list Customer.t)) (p : Proc W) :
  length (fst (outcomes cs p)) = length cs.
Proof.
  revert p. induction cs as [|chunk cs IH]; intros p; [reflexivity|].
  rewrite outcomes_cons. cbn. now rewrite IH.
Qed.

(** The calls of the loop, in order: one per chunk. *)
Lemma outcomes_wire (cs : list (list Customer.t)) (p : Proc W) :
  wire (snd (outcomes cs p)) =
  wire p ++ map (fun chunk => wire_request (this p) "/customers" (post_customers chunk)) cs /\
  baseUrl (this (snd (outcomes cs p))) = baseUrl (this p) /\
  config_apiKey (this (snd (outcomes cs p))) = config_apiKey (this p) /\
  cacheDisabled (this (snd (outcomes cs p))) = cacheDisabled (this p).
Proof.
  revert p. induction cs as [|chunk cs IH]; intros p.
  - cbn. now rewrite app_nil_r.
  - rewrite outcomes_cons. cbn [fst snd map].
    set (p1 := snd (request "/customers" (post_customers chunk) p)).
    destruct (IH p1) as (Hw & Hb & Hk & Hd).
    destruct (request_config "/customers" (post_customers chunk) p) as (Hb1 & Hk1 & Hd1).
    fold p1 in Hb1, Hk1, Hd1.
    assert (Hw1 : wire p1 = wire p ++ [wire_request (this p) "/customers" (post_customers chunk)])
      by apply request_wire.
    rewrite Hw, Hb, Hk, Hd, Hw1.
    rewrite <- app_assoc. cbn [app]. repeat split; try congruence.
    do 2 f_equal. apply map_ext. intros a.
    now apply wire_request_config.
Qed.

Lemma tally_eta (acc : Tally) :
  mkTally (t_results acc ++ []) (t_success acc + 0) (t_error acc + 0) = acc.
Proof. destruct acc. cbn. now rewrite app_nil_r, !Nat.add_0_r. Qed.

(** The loop visits the chunks in order and tallies each outcome. *)
Lemma chunk_loop_outcomes (fuel : nat) (d : list Customer.t) (i : nat)
  (acc : Tally) (p : Proc W) :
  chunk_loop fuel d i acc p =
  let cs := chunks_from fuel (drop i d) in
  let rs := fst (outcomes cs p) in
  (Ok (mkTally (t_results acc ++ concat (zip_with rows_of cs rs))
         (t_success acc + count_entries succeeded cs rs)
         (t_error acc + count_entries (fun r => negb (succeeded r)) cs rs)),
   snd (outcomes cs p)).
Proof.
  revert i acc p. induction fuel as [|fuel IH]; intros i acc p.
  - cbn. now rewrite tally_eta.
  - cbn [chunk_loop]. destruct (i <? length d)%nat eqn:Hi.
    + apply Nat.ltb_lt in Hi.
      destruct (drop i d) as [|x l'] eqn:Hd.
      { apply (f_equal length) in Hd. rewrite length_drop in Hd. cbn in Hd. lia. }
      rewrite chunks_from_nonempty, <- Hd, drop_drop. clear Hd.
      unfold bind. rewrite slice_chunk, submit_chunk_spec. cbn beta iota zeta.
      rewrite IH, outcomes_cons. cbn [fst snd t_results t_success t_error zip_with
                                       concat count_entries].
      rewrite <- !app_assoc, <- !Nat.add_assoc. reflexivity.
    + apply Nat.ltb_ge in Hi. rewrite drop_ge by exact Hi.
      cbn. now rewrite tally_eta.
Qed.

(** [createCustomers] always returns: one call per chunk of the
    de-duplicated list, one row per entry, and the invalidation at the end. *)
Lemma createCustomers_eq (customers : list Customer.t) (cache : PluginCache.t Json)
  (p : Proc W) :
  let cs := chunks (dedupe customers) in
  let rs := fst (outcomes cs p) in
  createCustomers customers (cache, p) =
  (Ok (mkBulkResult true "create-customers"
         (count_entries succeeded cs rs)
         (count_entries (fun r => negb (succeeded r)) cs rs)
         (concat (zip_with rows_of cs rs))),
   (snd (PluginCache.invalidatePattern customer_pattern cache),
    snd (outcomes cs p))).
Proof.
  unfold createCustomers, bind, lift_snd. rewrite chunk_loop_outcomes.
  cbn zeta. rewrite drop_0. reflexivity.
Qed.

End BulkFacts.

(* ===================================================================== *)
(** * Properties of the client operations *)
(* ===================================================================== *)

(** The rows of a chunk, written out. *)
Lemma rows_of_explicit (chunk : list Customer.t) (r : Result Json) :
  rows_of chunk r =
  match r with
  | Ok _ => map (fun c => mkRow (default "" (Customer.email c)) true None) chunk
  | Throw e =>
      map (fun c => mkRow (default "" (Customer.email c)) false (Some (message e))) chunk
  end.
Proof. destruct r; reflexivity. Qed.

Lemma chunks_1500_eq {A : Type} (l : list A) :
  length l = 1500%nat -> chunks l = [take 1000 l; drop 1000 l].
Proof.
  intros Hlen. apply list_eq. intros i. rewrite chunks_lookup, slice_chunk.
  change chunkSize with 1000%nat. destruct i as [|[|i]].
  - rewrite decide_True by lia. reflexivity.
  - rewrite decide_True by lia.
    cbn [lookup list_lookup]. f_equal. rewrite Nat.mul_1_l.
    apply take_ge. rewrite length_drop. lia.
  - rewrite decide_False by lia. reflexivity.
Qed.

(** Every chunk before a given one is full. *)
Lemma chunks_full_before {A : Type} (l : list A) (i j : nat) (ci cj : list A) :
  chunks l !! i = Some ci -> chunks l !! j = Some cj -> (j < i)%nat ->
  length cj = chunkSize.
Proof.
  rewrite !chunks_lookup, !slice_chunk.
  destruct (decide (i * chunkSize < length l)%nat) as [Hi|]; [|discriminate].
  destruct (decide (j * chunkSize < length l)%nat) as [Hj|]; [|discriminate].
  intros _ [= <-] Hlt. rewrite length_take, length_drop.
  assert ((j + 1) * chunkSize <= i * chunkSize)%nat by (apply Nat.mul_le_mono_r; lia).
  lia.
Qed.

(** Where the rows of the [i]-th chunk stand in the result, when the
    chunks before it all have [n] entries. *)
Lemma rows_position {A B C : Type} (rows : list A -> B -> list C) (n : nat)
  (cs : list (list A)) (rs : list B) (i : nat) (chunk : list A) (r : B) :
  (forall ch x, length (rows ch x) = length ch) ->
  (forall j ch, (j < i)%nat -> cs !! j = Some ch -> length ch = n) ->
  cs !! i = Some chunk -> rs !! i = Some r ->
  take (length chunk) (drop (i * n) (concat (zip_with rows cs rs))) = rows chunk r.
Proof.
  intros Hlen. revert cs rs. induction i as [|i IH]; intros cs rs Hfull Hc Hr.
  - destruct cs as [|c0 cs]; [discriminate|]. destruct rs as [|r0 rs]; [discriminate|].
    injection Hc as ->. injection Hr as ->. cbn [zip_with concat Nat.mul drop].
    apply take_app_length'. now rewrite Hlen.
  - destruct cs as [|c0 cs]; [discriminate|]. destruct rs as [|r0 rs]; [discriminate|].
    cbn [zip_with concat]. cbn [Nat.mul].
    rewrite drop_app_add'.
    2:{ rewrite Hlen. symmetry. apply (Hfull 0%nat); [lia | reflexivity]. }
    apply IH; [|exact Hc|exact Hr].
    intros j ch Hj Hch. apply (Hfull (Datatypes.S j)); [lia | exact Hch].
Qed.

Section ClientClaims.
Context {W : Type} `{Host W}.

Lemma deleteCustomer_eq (email : string) (cache : PluginCache.t Json) (p : Proc W) :
  deleteCustomer email (cache, p) =
  match request "/customers"
          (mkRequestOptions (Some "DELETE") None (Some (EmailBody email)) None) p with
  | (Ok _, p1) =>
      (Ok (mkDeleteResult true "delete-customer" true),
       (snd (PluginCache.invalidatePattern customer_pattern cache), p1))
  | (Throw e, p1) => (Throw e, (cache, p1))
  end.
Proof.
  unfold deleteCustomer, bind, lift_snd, ret.
  now destruct (request _ _ p) as [[j|e] p1].
Qed.

(** C4: [createCustomers] keeps, of the entries with an address, the first
    one for each lower-cased address; submits the kept entries in slices
    of 1000, one network call per slice (two calls, of 1000 and 500, for
    1500 kept entries); gives every entry of a slice the outcome of that
    slice's call: a row with [success: true] and no error when the call
    returned, a row with [success: false] and the message of the error
    when it failed, whatever happened to the other slices; and returns
    normally with the per-entry rows and the two counts.  With 1500 kept
    entries and a failing second call there are 1000 successes and 500
    failures, each of the 500 with the message. *)
Theorem createCustomers_bulk (customers : list Customer.t)
  (cache : PluginCache.t Json) (p : Proc W) :
  let d := dedupe customers in
  let cs := chunks d in
  let rs := fst (outcomes cs p) in
  let p' := snd (outcomes cs p) in
  let success (c : Customer.t) : ResultRow :=
    mkRow (default "" (Customer.email c)) true None in
  let failure (e : Error) (c : Customer.t) : ResultRow :=
    mkRow (default "" (Customer.email c)) false (Some (message e)) in
  let rows (chunk : list Customer.t) (r : Result Json) : list ResultRow :=
    match r with
    | Ok _ => map success chunk
    | Throw e => map (failure e) chunk
    end in
  (sublist d customers /\
   NoDup (map email_key d) /\
   forall (l : list Customer.t) (c : Customer.t),
     dedupe (l ++ [c]) =
     dedupe l ++
     (if has_email c &&
         bool_decide (email_key c ∉ map email_key (List.filter has_email l))
      then [c] else [])) /\
  (chunkSize = 1000%nat /\
   concat cs = d /\
   (forall i : nat,
      cs !! i =
      if decide (i * chunkSize < length d)%nat
      then Some (slice d (i * chunkSize) (i * chunkSize + chunkSize))
      else None) /\
   (length d = 1500%nat -> map length cs = [1000%nat; 500%nat])) /\
  (wire p' =
   wire p ++ map (fun chunk => wire_request (this p) "/customers" (post_customers chunk)) cs /\
   length rs = length cs) /\
  createCustomers customers (cache, p) =
  (Ok (mkBulkResult true "create-customers"
         (count_entries succeeded cs rs)
         (count_entries (fun r => negb (succeeded r)) cs rs)
         (concat (zip_with rows cs rs))),
   (snd (PluginCache.invalidatePattern customer_pattern cache), p')) /\
  (forall (i : nat) (chunk : list Customer.t) (r : Result Json),
     cs !! i = Some chunk -> rs !! i = Some r ->
     take (length chunk) (drop (i * 1000) (concat (zip_with rows cs rs))) = rows chunk r) /\
  (forall (j : Json) (e : Error),
     length d = 1500%nat -> rs = [Ok j; Throw e] ->
     createCustomers customers (cache, p) =
     (Ok (mkBulkResult true "create-customers" 1000 500
            (map success (take 1000 d) ++ map (failure e) (drop 1000 d))),
      (snd (PluginCache.invalidatePattern customer_pattern cache), p'))).
Proof.
  intros d cs rs p' success failure rows.
  assert (Hrows : zip_with rows_of cs rs = zip_with rows cs rs).
  { apply zip_with_ext; [|reflexivity..]. intros chunk r. apply rows_of_explicit. }
  assert (Heq : createCustomers customers (cache, p) =
    (Ok (mkBulkResult true "create-customers"
           (count_entries succeeded cs rs)
           (count_entries (fun r => negb (succeeded r)) cs rs)
           (concat (zip_with rows cs rs))),
     (snd (PluginCache.invalidatePattern customer_pattern cache), p'))).
  { rewrite <- Hrows. apply createCustomers_eq. }
  split; [|split; [|split; [|split; [|split]]]].
  - split; [apply dedupe_from_sublist|]. split; [apply dedupe_from_keys|].
    intros l c. unfold dedupe. now rewrite dedupe_from_snoc.
  - split; [reflexivity|]. split; [apply chunks_concat|].
    split; [intros i; apply chunks_lookup | apply chunks_1500].
  - split; [apply outcomes_wire | apply outcomes_length].
  - exact Heq.
  - intros i chunk r Hc Hr.
    apply (rows_position rows 1000 cs rs i chunk r); [|  |exact Hc|exact Hr].
    + intros ch x. destruct x; cbn; apply length_map.
    + intros j ch Hj Hch. apply (chunks_full_before d i j chunk ch Hc Hch Hj).
  - intros j e Hlen Hrs. rewrite Heq.
    assert (Hcs : cs = [take 1000 d; drop 1000 d]) by now apply chunks_1500_eq.
    rewrite Hrs, Hcs. cbn [zip_with concat count_entries succeeded negb rows].
    rewrite app_nil_r, length_take, length_drop, Hlen.
    repeat f_equal.
Qed.

(** C9: entries whose address is absent or empty are dropped before
    chunking: they are in no submitted slice, have no row and count
    neither as success nor as error; an input of such entries only issues
    no network call and returns zero counts and no rows. *)
Theorem createCustomers_drops_missing_email (customers : list Customer.t)
  (cache : PluginCache.t Json) (p : Proc W) :
  let d := dedupe customers in
  (forall c, c ∈ d -> has_email c = true) /\
  dedupe (List.filter has_email customers) = d /\
  createCustomers (List.filter has_email customers) (cache, p) =
    createCustomers customers (cache, p) /\
  (forall chunk c, chunk ∈ chunks d -> c ∈ chunk -> has_email c = true) /\
  (exists (b : BulkResult) (p' : Proc W),
     createCustomers customers (cache, p) =
       (Ok b, (snd (PluginCache.invalidatePattern customer_pattern cache), p')) /\
     map row_email (results b) = map (fun c => default "" (Customer.email c)) d /\
     (success_count b + error_count b = length d)%nat) /\
  (Forall (fun c => has_email c = false) customers ->
   createCustomers customers (cache, p) =
     (Ok (mkBulkResult true "create-customers" 0 0 []),
      (snd (PluginCache.invalidatePattern customer_pattern cache), p))).
Proof.
  intros d.
  assert (Hd : forall c, c ∈ d -> has_email c = true)
    by (intros c; apply dedupe_from_has_email).
  split; [exact Hd|]. split; [apply dedupe_filter|].
  split; [|split; [|split]].
  - unfold createCustomers, dedupe. now rewrite dedupe_filter.
  - intros chunk c Hchunk Hc. apply Hd.
    rewrite <- (chunks_concat d). apply list_elem_of_In, in_concat.
    exists chunk. split; now apply list_elem_of_In.
  - eexists _, _. split; [apply createCustomers_eq|]. cbn [results success_count error_count].
    split.
    + rewrite rows_emails by apply outcomes_length. now rewrite chunks_concat.
    + rewrite count_entries_total by apply outcomes_length. now rewrite chunks_concat.
  - intros Hall. rewrite createCustomers_eq. cbn zeta.
    rewrite (dedupe_no_email _ Hall). reflexivity.
Qed.

(** C10: [createCustomers] invalidates the keys matching [/^customer/] on
    every call, whatever the outcome of the chunk requests: also when every
    request failed (no success, one error per kept entry) the customer
    entries are gone from the cache and the others are as before. *)
Theorem createCustomers_always_invalidates (customers : list Customer.t)
  (cache : PluginCache.t Json) (p : Proc W) :
  let cache' := fst (snd (createCustomers customers (cache, p))) in
  let rs := fst (outcomes (chunks (dedupe customers)) p) in
  (exists b : BulkResult,
     fst (createCustomers customers (cache, p)) = Ok b /\
     (Forall (fun r => succeeded r = false) rs ->
      success_count b = 0%nat /\ error_count b = length (dedupe customers))) /\
  cache' = snd (PluginCache.invalidatePattern customer_pattern cache) /\
  (forall k, customer_pattern k = true -> PluginCache.store cache' !! k = None) /\
  (forall k, customer_pattern k = false ->
             PluginCache.store cache' !! k = PluginCache.store cache !! k).
Proof.
  intros cache' rs. subst cache' rs. rewrite createCustomers_eq. cbn [fst snd].
  destruct (invalidatePattern_spec customer_pattern cache) as (Hgone & Hkept & _).
  repeat split; auto.
  eexists. split; [reflexivity|]. cbn [success_count error_count]. intros Hall.
  destruct (count_entries_all_failed (chunks (dedupe customers)) _
              (outcomes_length _ _) Hall) as [-> ->].
  now rewrite chunks_concat.
Qed.

(** C5: [invalidatePattern(/^customer/)] removes every stored entry whose
    key starts with "customer" (the keys of [listCustomers] and of
    [getCustomer] among them), leaves every other entry as it was, and
    returns the number of entries removed; it is what [createCustomers]
    does to the cache on every call, and what [deleteCustomer] does
    whenever its DELETE request succeeds, in which case it returns
    normally. *)
Theorem invalidate_customer_keys (cache : PluginCache.t Json) :
  let count := fst (PluginCache.invalidatePattern customer_pattern cache) in
  let cache' := snd (PluginCache.invalidatePattern customer_pattern cache) in
  (forall k, customer_pattern k = true -> PluginCache.store cache' !! k = None) /\
  (forall k, customer_pattern k = false ->
             PluginCache.store cache' !! k = PluginCache.store cache !! k) /\
  (count + size (PluginCache.store cache') = size (PluginCache.store cache))%nat /\
  (forall options, customer_pattern (listCustomers_key options) = true) /\
  (forall customerId,
     customer_pattern (createCacheKey "customer" [("id", Some (PString customerId))]) = true) /\
  (forall options, customer_pattern (listFeedback_key options) = false) /\
  (forall customers (p : Proc W),
     fst (snd (createCustomers customers (cache, p))) = cache') /\
  (forall email (p : Proc W) b st,
     deleteCustomer email (cache, p) = (Ok b, st) -> fst st = cache') /\
  (forall email (p p1 : Proc W) (j : Json),
     request "/customers"
       (mkRequestOptions (Some "DELETE") None (Some (EmailBody email)) None) p
     = (Ok j, p1) ->
     deleteCustomer email (cache, p) =
     (Ok (mkDeleteResult true "delete-customer" true), (cache', p1))).
Proof.
  intros count cache'.
  destruct (invalidatePattern_spec customer_pattern cache) as (Hgone & Hkept & Hcount & _).
  repeat split; auto.
  - intros customers p. now rewrite createCustomers_eq.
  - intros email p b st. rewrite deleteCustomer_eq.
    destruct (request _ _ p) as [[j|e] p1]; [|discriminate].
    now intros [= _ <-].
  - intros email p p1 j Hreq. now rewrite deleteCustomer_eq, Hreq.
Qed.

(** C3 (as amended): when [since] is present and not the empty string,
    [listFeedback] bypasses the cache: it runs its fetch function, which
    issues the request, returns that result, and neither reads nor changes
    the cache. *)
Theorem listFeedback_since_bypasses (options : ListFeedbackOptions)
  (cache : PluginCache.t Json) (p : Proc W) (since : string) :
  lf_since options = Some since ->
  since <> EmptyString ->
  listFeedback options (cache, p) =
    (fst (listFeedback_fetch options p), (cache, snd (listFeedback_fetch options p))) /\
  wire (snd (listFeedback_fetch options p)) =
    wire p ++ [wire_request (this p) "/feedback"
                 (mkRequestOptions None (Some (listFeedback_params options)) None None)].
Proof.
  intros Hs Hne. split.
  - unfold listFeedback. apply getOrFetch_bypass. left. cbn.
    rewrite Hs. destruct since; [congruence|]. apply orb_true_r.
  - apply request_wire.
Qed.

End ClientClaims.

(** Concrete runs of the client operations on the scripted host. *)

Lemma listFeedback_since_bypasses_witness :
  let options := mkListFeedbackOptions None None None (Some "2024-01-01") None None in
  let st0 := (initial_cache,
              boot 0 [ok_reply (JStr "first"); ok_reply (JStr "second")]) in
  let st1 := snd (listFeedback options st0) in
  fst (listFeedback options st1) = Ok (JStr "second") /\
  fst (snd (listFeedback options st1)) = initial_cache /\
  length (wire (snd (snd (listFeedback options st1)))) = 2%nat.
Proof.
  intros options st0 st1.
  destruct (listFeedback_since_bypasses (H := Script_Host) options
              (fst st1) (snd st1) "2024-01-01" eq_refl ltac:(discriminate))
    as [Heq _].
  change (fst st1, snd st1) with st1 in Heq. rewrite Heq.
  vm_compute. repeat split.
Defined.

(** An empty [since] is present, yet the second identical call is served
    from the cache and issues no request. *)
Lemma listFeedback_empty_since_served_from_cache :
  let options := mkListFeedbackOptions None None None (Some EmptyString) None None in
  let st0 := (initial_cache,
              boot 0 [ok_reply (JStr "first"); ok_reply (JStr "second")]) in
  let st1 := snd (listFeedback options st0) in
  lf_since options = Some EmptyString /\
  fst (listFeedback options st1) = Ok (JStr "first") /\
  wire (snd (snd (listFeedback options st1))) = wire (snd st1) /\
  length (wire (snd st1)) = 1%nat.
Proof. vm_compute. repeat split. Qed.

(** [listCustomers] through the cache: a second call 299 s after the
    first is answered from the cache, a third one second later fetches. *)
Example listCustomers_once_per_five_minutes :
  let options := mkListCustomersOptions (Some 1) None None in
  let st0 := (initial_cache,
              boot 0 [ok_reply (JStr "one"); ok_reply (JStr "two")]) in
  let run1 := listCustomers options st0 in
  let run2 := listCustomers options (advance 299000 (snd run1)) in
  let run3 := listCustomers options (advance 1000 (snd run2)) in
  fst run1 = Ok (JStr "one") /\
  fst run2 = Ok (JStr "one") /\ length (wire (snd (snd run2))) = 1%nat /\
  fst run3 = Ok (JStr "two") /\ length (wire (snd (snd run3))) = 2%nat /\
  PluginCache.getStats (fst (snd run3)) = PluginCache.mkStats 1 2 1 true.
Proof. vm_compute. repeat split. Qed.

(** The example of the spec: three entries, two distinct addresses. *)
Example dedupe_case_insensitive :
  dedupe [customer_of (Some "a@x.com") (Some "first");
          customer_of (Some "A@X.COM") (Some "second");
          customer_of (Some "b@x.com") (Some "third")]
  = [customer_of (Some "a@x.com") (Some "first");
     customer_of (Some "b@x.com") (Some "third")].
Proof. reflexivity. Qed.

(** 1500 customers, the second call answered with status 500: the first
    1000 rows are successes, the last 500 are failures with the message. *)
Lemma createCustomers_bulk_witness :
  createCustomers (customers_n 1500)
    (initial_cache, boot 0 [ok_reply JNull; reply 500 [] "boom" None]) =
  (Ok (mkBulkResult true "create-customers" 1000 500
         (map (fun c => mkRow (default "" (Customer.email c)) true None)
            (take 1000 (dedupe (customers_n 1500))) ++
          map (fun c => mkRow (default "" (Customer.email c)) false
                          (Some "Retently API error (500): boom"))
            (drop 1000 (dedupe (customers_n 1500))))),
   (snd (PluginCache.invalidatePattern customer_pattern initial_cache),
    snd (outcomes (chunks (dedupe (customers_n 1500)))
           (boot 0 [ok_reply JNull; reply 500 [] "boom" None])))).
Proof.
  destruct (createCustomers_bulk (H := Script_Host) (customers_n 1500) initial_cache
              (boot 0 [ok_reply JNull; reply 500 [] "boom" None]))
    as (_ & _ & _ & _ & _ & H1500).
  apply (H1500 JNull (newError "Retently API error (500): boom")).
  - vm_compute. reflexivity.
  - vm_compute. reflexivity.
Defined.

(** 1500 customers, the second call answered with status 500: 1000
    successes, and 500 failures that carry the message of the error. *)
Example createCustomers_1500_second_call_fails :
  let run :=
    createCustomers (customers_n 1500)
      (initial_cache, boot 0 [ok_reply JNull; reply 500 [] "boom" None]) in
  match run with
  | (Ok b, (_, p)) =>
      success_count b = 1000%nat /\
      error_count b = 500%nat /\
      map (fun row => (row_success row, row_error row)) (results b) =
        repeat (true, None) 1000 ++
        repeat (false, Some "Retently API error (500): boom") 500 /\
      map (fun q => match req_body q with
                    | Some (CustomersBody chunk) => length chunk
                    | _ => 0%nat
                    end) (wire p) = [1000%nat; 500%nat]
  | (Throw _, _) => False
  end.
Proof. vm_compute. repeat split. Qed.

Lemma createCustomers_drops_missing_email_witness :
  createCustomers [customer_of None (Some "Ann"); customer_of (Some EmptyString) None]
    (initial_cache, boot 0 [ok_reply JNull])
  = (Ok (mkBulkResult true "create-customers" 0 0 []),
     (initial_cache, boot 0 [ok_reply JNull])).
Proof.
  destruct (createCustomers_drops_missing_email (H := Script_Host)
              [customer_of None (Some "Ann"); customer_of (Some EmptyString) None]
              initial_cache (boot 0 [ok_reply JNull]))
    as (_ & _ & _ & _ & _ & Hnone).
  rewrite Hnone by (repeat constructor). reflexivity.
Defined.

(** A successful [deleteCustomer] on a cache with a customers-list entry
    and a feedback entry: the call returns, one entry is removed, the
    customers entry is gone and the feedback entry is as before. *)
Lemma invalidate_customer_keys_witness :
  let run := deleteCustomer "a@x.com" (sample_cache, boot 0 [ok_reply JNull]) in
  fst run = Ok (mkDeleteResult true "delete-customer" true) /\
  PluginCache.store (fst (snd run)) !! "customers:{}" = None /\
  PluginCache.store (fst (snd run)) !! "feedback:{}" =
    Some (PluginCache.mkEntry (JStr "answers") 120000) /\
  fst (PluginCache.invalidatePattern customer_pattern sample_cache) = 1%nat /\
  size (PluginCache.store (fst (snd run))) = 1%nat.
Proof.
  intros run.
  destruct (invalidate_customer_keys (W := Script) (H := Script_Host) sample_cache)
    as (Hgone & Hkept & Hcount & _ & _ & _ & _ & _ & Hdel).
  assert (Hrun : run =
            (Ok (mkDeleteResult true "delete-customer" true),
             (snd (PluginCache.invalidatePattern customer_pattern sample_cache),
              snd (request "/customers"
                     (mkRequestOptions (Some "DELETE") None (Some (EmailBody "a@x.com")) None)
                     (boot 0 [ok_reply JNull]))))).
  { apply (Hdel "a@x.com" (boot 0 [ok_reply JNull]) _ JNull). reflexivity. }
  rewrite Hrun. cbn [fst snd].
  split; [reflexivity|]. split; [apply Hgone; reflexivity|].
  split; [rewrite Hkept by reflexivity; reflexivity|].
  assert (Hsize : size (PluginCache.store sample_cache) = 2%nat) by (vm_compute; reflexivity).
  assert (Hone : fst (PluginCache.invalidatePattern customer_pattern sample_cache) = 1%nat)
    by (vm_compute; reflexivity).
  split; [exact Hone|]. rewrite Hone, Hsize in Hcount. lia.
Defined.

Lemma createCustomers_always_invalidates_witness :
  let run :=
    createCustomers [customer_of (Some "a@x.com") None; customer_of (Some "b@x.com") None]
      (sample_cache, boot 0 [Fails 1 (newError "fetch failed")]) in
  (exists b : BulkResult,
     fst run = Ok b /\ success_count b = 0%nat /\ error_count b = 2%nat) /\
  PluginCache.store (fst (snd run)) !! "customers:{}" = None /\
  PluginCache.store (fst (snd run)) !! "feedback:{}" =
    Some (PluginCache.mkEntry (JStr "answers") 120000).
Proof.
  intros run.
  destruct (createCustomers_always_invalidates (H := Script_Host)
              [customer_of (Some "a@x.com") None; customer_of (Some "b@x.com") None]
              sample_cache (boot 0 [Fails 1 (newError "fetch failed")]))
    as ((b & Hb & Hfail) & _ & Hgone & Hkept).
  split; [|split].
  - exists b. split; [exact Hb|]. apply Hfail. vm_compute. repeat constructor.
  - apply Hgone. reflexivity.
  - rewrite Hkept by reflexivity. reflexivity.
Defined.

(* ===================================================================== *)
(** * Properties of the cache keys *)
(* ===================================================================== *)

(** ** Rendered integers *)

Lemma uint_chars (d : Decimal.uint) : all_chars numeric (NilEmpty.string_of_uint d) = true.
Proof. induction d; cbn; auto. Qed.

Lemma Z_toString_chars (z : Z) : all_chars numeric (Z_toString z) = true.
Proof.
  unfold Z_toString.
  destruct (Z.to_int z) as [d|d]; cbn; destruct d;
    first [reflexivity | exact (uint_chars d)].
Qed.

Lemma Z_toString_nonempty (z : Z) : Z_toString z <> EmptyString.
Proof.
  unfold Z_toString.
  destruct (Z.to_int z) as [d|d]; cbn; [|discriminate].
  destruct d; discriminate.
Qed.

Lemma Z_to_int_canonical (z : Z) :
  Z.to_int z <> Decimal.Pos Decimal.Nil /\ Z.to_int z <> Decimal.Neg Decimal.Nil.
Proof.
  destruct z as [|q|q]; cbn; split; try discriminate;
    intros [= Hq]; now apply (DecimalPos.Unsigned.to_uint_nonnil q).
Qed.

Lemma Z_toString_inj (z1 z2 : Z) : Z_toString z1 = Z_toString z2 -> z1 = z2.
Proof.
  unfold Z_toString. intros Heq. apply DecimalZ.to_int_inj.
  destruct (Z_to_int_canonical z1) as [H1 H1'], (Z_to_int_canonical z2) as [H2 H2'].
  apply (f_equal NilZero.int_of_string) in Heq.
  rewrite !NilZero.isi in Heq by assumption. congruence.
Qed.

(** Two runs of characters of one class, each followed by a character
    outside the class, are equal when the whole strings are. *)
Lemma run_delimited (P : ascii -> bool) (a b : string) (c1 c2 : ascii) (r1 r2 : string) :
  all_chars P a = true -> all_chars P b = true ->
  P c1 = false -> P c2 = false ->
  a +:+ String c1 r1 = b +:+ String c2 r2 ->
  a = b /\ c1 = c2 /\ r1 = r2.
Proof.
  revert b. induction a as [|x a IH]; intros [|y b] Ha Hb H1 H2 Heq;
    rewrite ?append_nil_l, ?append_cons in Heq; cbn in Ha, Hb.
  - now injection Heq as -> ->.
  - injection Heq as -> _. apply andb_true_iff in Hb. destruct Hb. congruence.
  - injection Heq as -> _. apply andb_true_iff in Ha. destruct Ha. congruence.
  - injection Heq as -> Heq.
    apply andb_true_iff in Ha, Hb. destruct Ha as [_ Ha], Hb as [_ Hb].
    destruct (IH b Ha Hb H1 H2 Heq) as (-> & -> & ->). auto.
Qed.

(** ** Quoted strings *)

Lemma escape_cons (c : ascii) (r : string) :
  escape (String c r) =
  if special c then String backslash (String c (escape r)) else String c (escape r).
Proof. reflexivity. Qed.

Lemma special_dquote (c : ascii) : special c = false -> c <> dquote.
Proof.
  unfold special. intros Hc ->. rewrite Ascii.eqb_refl in Hc. discriminate.
Qed.

Lemma special_backslash (c : ascii) : special c = false -> c <> backslash.
Proof.
  unfold special. intros Hc ->. rewrite Ascii.eqb_refl, orb_true_r in Hc. discriminate.
Qed.

(** An escaped string followed by a closing quote determines the string. *)
Lemma escape_delimited (s1 s2 r1 r2 : string) :
  escape s1 +:+ String dquote r1 = escape s2 +:+ String dquote r2 ->
  s1 = s2 /\ r1 = r2.
Proof.
  revert s2. induction s1 as [|c1 s1 IH]; intros [|c2 s2];
    rewrite ?escape_cons; intros Heq.
  - cbn in Heq. now injection Heq as ->.
  - cbn [escape] in Heq. rewrite append_nil_l in Heq.
    destruct (special c2) eqn:H2; rewrite append_cons in Heq.
    + discriminate.
    + injection Heq as Hc _. apply special_dquote in H2. congruence.
  - cbn [escape] in Heq. rewrite append_nil_l in Heq.
    destruct (special c1) eqn:H1; rewrite append_cons in Heq.
    + discriminate.
    + injection Heq as Hc _. apply special_dquote in H1. congruence.
  - destruct (special c1) eqn:H1, (special c2) eqn:H2;
      rewrite ?append_cons in Heq.
    + injection Heq as -> Heq. destruct (IH _ Heq) as [-> ->]. auto.
    + injection Heq as Hc _. apply special_backslash in H2. congruence.
    + injection Heq as Hc _. apply special_backslash in H1. congruence.
    + injection Heq as -> Heq. destruct (IH _ Heq) as [-> ->]. auto.
Qed.

Lemma quote_append (s x : string) :
  quote s +:+ x = String dquote (escape s +:+ String dquote x).
Proof. unfold quote. now rewrite append_cons, append_assoc. Qed.

Lemma quote_delimited (s1 s2 x1 x2 : string) :
  quote s1 +:+ x1 = quote s2 +:+ x2 -> s1 = s2 /\ x1 = x2.
Proof.
  rewrite !quote_append. intros [= Heq]. now apply escape_delimited.
Qed.

(** ** Values and entries *)

Lemma delimiter_not_numeric (c : ascii) : is_delimiter c -> numeric c = false.
Proof. intros [-> | ->]; reflexivity. Qed.

Lemma Z_toString_head (z : Z) :
  exists c r, Z_toString z = String c r /\ numeric c = true.
Proof.
  pose proof (Z_toString_chars z) as Hall.
  pose proof (Z_toString_nonempty z) as Hne.
  destruct (Z_toString z) as [|c r]; [congruence|].
  exists c, r. cbn in Hall. apply andb_true_iff in Hall. now destruct Hall.
Qed.

Lemma stringify_value_delimited (v1 v2 : ParamValue) (d1 d2 : ascii) (r1 r2 : string) :
  is_delimiter d1 -> is_delimiter d2 ->
  stringify_value v1 +:+ String d1 r1 = stringify_value v2 +:+ String d2 r2 ->
  v1 = v2 /\ String d1 r1 = String d2 r2.
Proof.
  intros Hd1 Hd2.
  destruct v1 as [s1|n1|b1], v2 as [s2|n2|b2]; cbn [stringify_value].
  - intros [-> ->]%quote_delimited. auto.
  - rewrite quote_append. destruct (Z_toString_head n2) as (c & r & -> & Hc).
    rewrite append_cons. intros [= <- _]. discriminate.
  - rewrite quote_append. destruct b2; rewrite append_cons; discriminate.
  - rewrite quote_append. destruct (Z_toString_head n1) as (c & r & -> & Hc).
    rewrite append_cons. intros [= -> _]. discriminate.
  - intros Heq.
    destruct (run_delimited numeric _ _ _ _ _ _
                (Z_toString_chars n1) (Z_toString_chars n2)
                (delimiter_not_numeric _ Hd1) (delimiter_not_numeric _ Hd2) Heq)
      as (Hn & -> & ->).
    apply Z_toString_inj in Hn. now subst.
  - destruct (Z_toString_head n1) as (c & r & -> & Hc).
    destruct b2; rewrite !append_cons; intros [= -> _]; discriminate.
  - rewrite quote_append. destruct b1; rewrite append_cons; discriminate.
  - destruct (Z_toString_head n2) as (c & r & -> & Hc).
    destruct b1; rewrite !append_cons; intros [= <- _]; discriminate.
  - destruct b1, b2; intros Heq.
    + apply (inj (String.append _)) in Heq. auto.
    + rewrite !append_cons in Heq. discriminate.
    + rewrite !append_cons in Heq. discriminate.
    + apply (inj (String.append _)) in Heq. auto.
Qed.

Lemma stringify_entries_cons (kv : string * ParamValue) (r : list (string * ParamValue)) :
  stringify_entries (kv :: r) =
  quote (fst kv) +:+ ":" +:+ stringify_value (snd kv) +:+ entries_tail r.
Proof. destruct r; reflexivity. Qed.

Lemma entries_tail_head (r : list (string * ParamValue)) :
  exists d x, entries_tail r = String d x /\ is_delimiter d.
Proof.
  destruct r as [|kv r]; cbn [entries_tail].
  - exists "}"%char, EmptyString. split; [reflexivity | now right].
  - exists ","%char, (stringify_entries (kv :: r)). split; [reflexivity | now left].
Qed.

(** The text of a list of entries determines the list. *)
Lemma stringify_entries_inj (l1 l2 : list (string * ParamValue)) :
  stringify_entries l1 = stringify_entries l2 -> l1 = l2.
Proof.
  revert l2. induction l1 as [|[k1 v1] r1 IH]; intros [|[k2 v2] r2].
  - reflexivity.
  - rewrite stringify_entries_cons, quote_append. discriminate.
  - rewrite stringify_entries_cons, quote_append. discriminate.
  - rewrite !stringify_entries_cons. cbn [fst snd].
    intros [-> Heq]%quote_delimited.
    rewrite !append_cons, !append_nil_l in Heq. injection Heq as Heq.
    destruct (entries_tail_head r1) as (d1 & x1 & Ht1 & Hd1).
    destruct (entries_tail_head r2) as (d2 & x2 & Ht2 & Hd2).
    rewrite Ht1, Ht2 in Heq.
    destruct (stringify_value_delimited _ _ _ _ _ _ Hd1 Hd2 Heq) as [-> Htail].
    rewrite <- Ht1, <- Ht2 in Htail. f_equal.
    destruct r1 as [|kv1 r1], r2 as [|kv2 r2]; cbn [entries_tail] in Htail;
      try reflexivity; try discriminate.
    apply (inj (String.append _)) in Htail. now apply IH.
Qed.

(** ** Normalized parameter objects *)

#[local] Instance key_le_trans : Transitive key_le.
Proof. intros a b c. unfold key_le. apply transitivity. Qed.

#[local] Instance key_le_total : Total key_le.
Proof. intros a b. unfold key_le. apply total, _. Qed.

Lemma in_defined (p : Params) (k : string) (v : ParamValue) :
  (k, v) ∈ defined p <-> (k, Some v) ∈ p.
Proof.
  induction p as [|[k' [v'|]] p IH]; cbn.
  - split; intros Hin; inversion Hin.
  - rewrite !elem_of_cons, IH. split; intros [Heq|Hin]; auto; left; congruence.
  - rewrite elem_of_cons, IH. split; [auto|]. intros [Heq|Hin]; [discriminate|auto].
Qed.

Lemma defined_key_in (p : Params) (k : string) :
  k ∈ map fst (defined p) -> k ∈ map fst p.
Proof.
  induction p as [|[k' [v'|]] p IH]; cbn; [auto| |].
  - rewrite !elem_of_cons. intros [->|Hin]; auto.
  - rewrite elem_of_cons. auto.
Qed.

Lemma defined_keys_NoDup (p : Params) :
  NoDup (map fst p) -> NoDup (map fst (defined p)).
Proof.
  induction p as [|[k [v|]] p IH]; cbn; [auto| |].
  - intros Hnd. inversion Hnd as [|? ? Hout Hrest]; subst.
    constructor; [|auto]. intros Hin. now apply Hout, defined_key_in.
  - intros Hnd. inversion Hnd; auto.
Qed.

Lemma keys_NoDup_unique {A : Type} (l : list (string * A)) (k : string) (v1 v2 : A) :
  NoDup (map fst l) -> (k, v1) ∈ l -> (k, v2) ∈ l -> v1 = v2.
Proof.
  induction l as [|[k' v'] l IH]; cbn; intros Hnd H1 H2; [inversion H1|].
  inversion Hnd as [|? ? Hout Hrest]; subst.
  assert (Hkey : forall v, (k', v) ∈ l -> False).
  { intros v Hin. apply Hout. apply list_elem_of_In, in_map_iff.
    exists (k', v). split; [reflexivity | now apply list_elem_of_In]. }
  apply elem_of_cons in H1, H2.
  destruct H1 as [E1|H1], H2 as [E2|H2].
  - congruence.
  - injection E1 as -> ->. exfalso. eauto.
  - injection E2 as -> ->. exfalso. eauto.
  - auto.
Qed.

Lemma keys_NoDup {A : Type} (l : list (string * A)) : NoDup (map fst l) -> NoDup l.
Proof. apply (NoDup_fmap_1 fst). Qed.

(** Sorting forgets the insertion order of an object. *)
Lemma sort_entries_unique (l1 l2 : list (string * ParamValue)) :
  NoDup (map fst l1) -> l1 ≡ₚ l2 -> sort_entries l1 = sort_entries l2.
Proof.
  intros Hnd Hperm. unfold sort_entries.
  apply (Sorted_unique_strong key_le).
  - intros [k1 v1] [k2 v2] H1 H2 Hle1 Hle2.
    rewrite merge_sort_Permutation in H1, H2. rewrite <- Hperm in H2.
    unfold key_le in Hle1, Hle2. cbn in Hle1, Hle2.
    assert (k1 = k2) as -> by (apply (anti_symm String.le); assumption).
    f_equal. eapply keys_NoDup_unique; eassumption.
  - apply Sorted_merge_sort, _.
  - apply Sorted_merge_sort, _.
  - now rewrite !merge_sort_Permutation.
Qed.

Lemma createCacheKey_inj (operation : string) (p q : Params) :
  createCacheKey operation p = createCacheKey operation q ->
  defined p ≡ₚ defined q.
Proof.
  unfold createCacheKey. intros Heq.
  do 3 apply (inj (String.append _)) in Heq.
  apply stringify_entries_inj in Heq. unfold sort_entries in Heq.
  rewrite <- (merge_sort_Permutation key_le (defined p)), Heq.
  apply merge_sort_Permutation.
Qed.

(** C2: for parameter objects (no property name twice), the cache key
    depends on the defined properties only: objects with the same defined
    name/value pairs get the same key, whatever the insertion order and
    the properties set to [undefined]; objects whose defined pairs differ
    get different keys. *)
Theorem createCacheKey_normalized (operation : string) (p q : Params) :
  NoDup (map fst p) -> NoDup (map fst q) ->
  (same_defined p q -> createCacheKey operation p = createCacheKey operation q) /\
  (p ≡ₚ q -> createCacheKey operation p = createCacheKey operation q) /\
  (forall k, createCacheKey operation ((k, None) :: p) = createCacheKey operation p) /\
  (~ same_defined p q -> createCacheKey operation p <> createCacheKey operation q).
Proof.
  intros Hp Hq.
  assert (Hsame : same_defined p q ->
                  createCacheKey operation p = createCacheKey operation q).
  { intros Hs. unfold createCacheKey. do 4 f_equal.
    apply sort_entries_unique; [now apply defined_keys_NoDup|].
    apply NoDup_Permutation.
    - now apply keys_NoDup, defined_keys_NoDup.
    - now apply keys_NoDup, defined_keys_NoDup.
    - intros [k v]. rewrite !in_defined. apply Hs. }
  split; [exact Hsame|]. split; [|split].
  - intros Hperm. apply Hsame. intros k v. now rewrite Hperm.
  - reflexivity.
  - intros Hdiff Heq. apply Hdiff. intros k v.
    rewrite <- !in_defined. now rewrite (createCacheKey_inj _ _ _ Heq).
Qed.

Lemma createCacheKey_normalized_witness :
  createCacheKey "customers"
    [("page", Some (PNumber 2)); ("email", Some (PString "a@x.com")); ("perPage", None)]
  = createCacheKey "customers"
      [("email", Some (PString "a@x.com")); ("page", Some (PNumber 2))] /\
  createCacheKey "customers" [("page", Some (PNumber 2))]
  <> createCacheKey "customers" [("page", Some (PNumber 3))].
Proof.
  split.
  - refine (proj1 (createCacheKey_normalized "customers"
              [("page", Some (PNumber 2)); ("email", Some (PString "a@x.com"));
               ("perPage", None)]
              [("email", Some (PString "a@x.com")); ("page", Some (PNumber 2))]
              _ _) _).
    + apply (bool_decide_unpack _). vm_compute. exact I.
    + apply (bool_decide_unpack _). vm_compute. exact I.
    + intros k v. rewrite !elem_of_cons, !elem_of_nil.
      split; intros Hin; repeat destruct Hin as [Hin|Hin];
        try discriminate; try contradiction; auto.
  - refine (proj2 (proj2 (proj2 (createCacheKey_normalized "customers"
              [("page", Some (PNumber 2))] [("page", Some (PNumber 3))] _ _))) _).
    + apply (bool_decide_unpack _). vm_compute. exact I.
    + apply (bool_decide_unpack _). vm_compute. exact I.
    + intros Hsame. destruct (Hsame "page" (PNumber 2)) as [Hin _].
      specialize (Hin ltac:(left)).
      rewrite elem_of_cons, elem_of_nil in Hin.
      destruct Hin as [Hin|Hin]; [discriminate | contradiction].
Defined.

(** Keys of requests that differ in a defined value or in the presence of
    a defined parameter. *)
Example createCacheKey_distinguishes :
  createCacheKey "customers" [("page", Some (PNumber 2))]
    <> createCacheKey "customers" [("page", Some (PNumber 3))] /\
  createCacheKey "customers" [("page", Some (PNumber 2))]
    <> createCacheKey "customers" [("page", Some (PString "2"))] /\
  createCacheKey "customers" [("page", Some (PNumber 2))]
    <> createCacheKey "customers" [("page", Some (PNumber 2)); ("email", Some (PString "a"))].
Proof. repeat split; discriminate. Qed.

(* ===================================================================== *)
(** * Further properties of the request handler *)
(* ===================================================================== *)

Section RequestPaths.
Context {W : Type} `{Host W}.

Lemma request_world (endpoint : string) (options : RequestOptions) (p : Proc W) :
  world (snd (request endpoint options p)) =
  snd (network (wire_request (this p) endpoint options) (world p)).
Proof.
  rewrite request_unfold. cbn zeta. unfold fetch.
  destruct (network _ _) as [reply w'].
  destruct reply as [latency r|latency e|]; cbn;
    repeat (match goal with |- context [if ?b then _ else _] => destruct b end; cbn);
    try reflexivity.
  destruct (json r); reflexivity.
Qed.

Lemma in_searchParams (params : Params) (k s : string) :
  (k, s) ∈ flat_map (fun kv : string * option ParamValue =>
                       match snd kv with
                       | Some value => [(fst kv, String_of value)]
                       | None => []
                       end) params <->
  exists v, (k, Some v) ∈ params /\ s = String_of v.
Proof.
  induction params as [|[k' [v'|]] params IH]; cbn.
  - split; [intros Hin; inversion Hin | intros (v & Hin & _); inversion Hin].
  - rewrite elem_of_cons, IH. split.
    + intros [[= -> ->]|(v & Hin & ->)].
      * exists v'. split; [left | reflexivity].
      * exists v. split; [now right | reflexivity].
    + intros (v & Hin & ->). apply elem_of_cons in Hin.
      destruct Hin as [[= -> ->]|Hin]; [now left | right; eauto].
  - rewrite IH. split.
    + intros (v & Hin & ->). exists v. split; [now right | reflexivity].
    + intros (v & Hin & ->). apply elem_of_cons in Hin.
      destruct Hin as [[=]|Hin]. eauto.
Qed.

(** X1: whatever the outcome, one call of [request] consults the network
    exactly once, with the API key and content type headers, and leaves
    the base URL, the API key and the cache switch of the client as they
    were. *)
Theorem request_one_call (endpoint : string) (options : RequestOptions) (p : Proc W) :
  let p' := snd (request endpoint options p) in
  exists req : FetchRequest,
    wire p' = wire p ++ [req] /\
    world p' = snd (network req (world p)) /\
    Headers_get (req_headers req) "x-api-key" = Some (config_apiKey (this p)) /\
    Headers_get (req_headers req) "content-type" = Some "application/json" /\
    Headers_get (req_headers req) "accept" = Some "application/json" /\
    baseUrl (this p') = baseUrl (this p) /\
    config_apiKey (this p') = config_apiKey (this p) /\
    cacheDisabled (this p') = cacheDisabled (this p).
Proof.
  intros p'. exists (wire_request (this p) endpoint options).
  destruct (request_config endpoint options p) as (Hb & Hk & Hd).
  repeat split; try assumption.
  - apply request_wire.
  - apply request_world.
Qed.

(** X2: when the string handed to [new URL] has no question mark, the
    query of the request holds exactly the parameters whose value is not
    [undefined], each rendered by [String(value)], in the order of the
    parameter object. *)
Theorem request_query_omits_undefined
  (endpoint : string) (options : RequestOptions) (p : Proc W) :
  mentions "?" (baseUrl (this p) +:+ endpoint) = false ->
  exists req : FetchRequest,
    wire (snd (request endpoint options p)) = wire p ++ [req] /\
    (forall k s,
       (k, s) ∈ searchParams (url req) <->
       exists v, (k, Some v) ∈ default [] (opt_params options) /\ s = String_of v) /\
    map fst (searchParams (url req)) =
      map fst (List.filter (fun kv => bool_decide (snd kv <> None))
                 (default [] (opt_params options))).
Proof.
  intros _. exists (wire_request (this p) endpoint options).
  split; [apply request_wire|]. split.
  - intros k s. apply in_searchParams.
  - cbn. induction (default [] (opt_params options)) as [|[k [v|]] l IH];
      cbn; [reflexivity | now rewrite IH | exact IH].
Qed.

(** X3: the method is GET unless the caller names one, and a GET request
    never carries a body, even when the caller passes one; any other method
    carries the body as given. *)
Theorem request_body_only_without_get
  (endpoint : string) (options : RequestOptions) (p : Proc W) :
  exists req : FetchRequest,
    wire (snd (request endpoint options p)) = wire p ++ [req] /\
    method req = default "GET" (opt_method options) /\
    (method req = "GET" -> req_body req = None) /\
    (method req <> "GET" -> req_body req = opt_body options).
Proof.
  exists (wire_request (this p) endpoint options).
  split; [apply request_wire|]. split; [reflexivity|]. cbn. split.
  - intros ->. now destruct (opt_body options).
  - intros Hne. apply String.eqb_neq in Hne. rewrite Hne.
    now destruct (opt_body options).
Qed.

(** X4: a response received in time whose status is neither 2xx nor 429,
    and whose body arrives before the timer fires, makes [request] fail
    with "Retently API error (<status>): <body text>"; the rate-limit
    snapshot is the one of that response. *)
Theorem request_api_error
  (endpoint : string) (options : RequestOptions) (p : Proc W)
  (latency : Z) (r : Response) (w' : W) :
  let timeout := default 30000 (opt_timeout options) in
  let req := wire_request (this p) endpoint options in
  network req (world p) = (Responds latency r, w') ->
  latency <= timeout ->
  status r <> 429 ->
  ok r = false ->
  bodyAt r <= timeout ->
  let msg := "Retently API error (" +:+ Z_toString (status r) +:+ "): " +:+ text r in
  request endpoint options p =
    (Throw (newError msg),
     mkProc w' (wire p ++ [req]) (with_rate_limit (headers r) (this p))) /\
  includes msg (Z_toString (status r)) /\
  includes msg (text r).
Proof.
  intros timeout req Hnet Hle Hst Hok Hbody msg. split; [|split].
  - rewrite request_unfold. cbn zeta. fold timeout req.
    rewrite (fetch_responds _ _ _ _ _ _ Hnet Hle). cbn.
    apply Z.eqb_neq in Hst. rewrite Hst, Hok. cbn.
    destruct (timeout <? bodyAt r) eqn:E; [apply Z.ltb_lt in E; lia | reflexivity].
  - subst msg. auto with includes.
  - subst msg. auto with includes.
Qed.

(** X5: a 2xx response received in time makes [request] return the parsed
    body as it is; when the body does not parse, [request] fails with an
    error named SyntaxError, not with the timeout or the API error.  The
    time the body takes plays no part: the timer is cleared when the
    handler returns [response.json()]. *)
Theorem request_success
  (endpoint : string) (options : RequestOptions) (p : Proc W)
  (latency : Z) (r : Response) (w' : W) :
  let req := wire_request (this p) endpoint options in
  network req (world p) = (Responds latency r, w') ->
  latency <= default 30000 (opt_timeout options) ->
  ok r = true ->
  let p2 := mkProc w' (wire p ++ [req]) (with_rate_limit (headers r) (this p)) in
  (forall j, json r = Some j -> request endpoint options p = (Ok j, p2)) /\
  (json r = None ->
   exists e, request endpoint options p = (Throw e, p2) /\ name e = "SyntaxError").
Proof.
  intros req Hnet Hle Hok p2.
  assert (Hreq : request endpoint options p =
                 (match json r with
                  | Some j => Ok j
                  | None => Throw SyntaxError
                  end, p2)).
  { rewrite request_unfold. cbn zeta. fold req.
    rewrite (fetch_responds _ _ _ _ _ _ Hnet Hle). cbn.
    assert ((status r =? 429) = false) as ->.
    { unfold ok in Hok. apply andb_true_iff in Hok. destruct Hok as [_ Hhi].
      apply Z.leb_le in Hhi. apply Z.eqb_neq. lia. }
    rewrite Hok. cbn. now destruct (json r). }
  split.
  - intros j Hj. now rewrite Hreq, Hj.
  - intros Hj. rewrite Hreq, Hj. eexists. split; reflexivity.
Qed.

(** X6: [request] returns normally only for a response that arrived
    before the timer fired, has a 2xx status and a body that parses; the
    value returned is that parsed body and the rate-limit snapshot is the
    one of that response. *)
Theorem request_ok_only_on_2xx
  (endpoint : string) (options : RequestOptions) (p p' : Proc W) (j : Json) :
  request endpoint options p = (Ok j, p') ->
  exists (latency : Z) (r : Response),
    fst (network (wire_request (this p) endpoint options) (world p)) = Responds latency r /\
    latency <= default 30000 (opt_timeout options) /\
    200 <= status r <= 299 /\
    json r = Some j /\
    getRateLimitInfo p' = parseRateLimit (headers r).
Proof.
  rewrite request_unfold. cbn zeta. unfold fetch.
  destruct (network _ _) as [reply w'].
  destruct reply as [latency r|latency e|]; cbn.
  - destruct (_ <? latency) eqn:Hlat; cbn; [discriminate|].
    destruct (status r =? 429); [discriminate|].
    destruct (ok r) eqn:Hok; cbn.
    + destruct (json r) as [j'|] eqn:Hj; [|discriminate].
      intros [= -> <-]. exists latency, r.
      apply Z.ltb_ge in Hlat. unfold ok in Hok.
      apply andb_true_iff in Hok. destruct Hok as [Hlo Hhi].
      apply Z.leb_le in Hlo, Hhi. auto.
    + destruct (_ <? bodyAt r); discriminate.
  - destruct (_ <? latency); cbn; [discriminate|].
    destruct (String.eqb _ _); discriminate.
  - discriminate.
Qed.

(** X7: a network failure that settles before the timer fires is passed
    on with the error unchanged, and the rate-limit snapshot stays as it
    was; only an error named AbortError is rewritten, into the timeout
    error, although the timer did not fire. *)
Theorem request_network_failure
  (endpoint : string) (options : RequestOptions) (p : Proc W)
  (latency : Z) (e : Error) (w' : W) :
  let timeout := default 30000 (opt_timeout options) in
  let req := wire_request (this p) endpoint options in
  network req (world p) = (Fails latency e, w') ->
  latency <= timeout ->
  request endpoint options p =
    (Throw (if String.eqb (name e) "AbortError"
            then newError (timeoutMessage timeout endpoint)
            else e),
     mkProc w' (wire p ++ [req]) (this p)).
Proof.
  intros timeout req Hnet Hle.
  rewrite request_unfold. cbn zeta. fold timeout req.
  unfold fetch. rewrite Hnet.
  destruct (timeout <? latency) eqn:E; [apply Z.ltb_lt in E; lia|].
  reflexivity.
Qed.

(** X8: when an error response arrives in time but its body does not
    arrive before the timer fires, [request] fails with the timeout error,
    not with the API error; the rate-limit snapshot has been taken from the
    headers all the same. *)
Theorem request_error_body_timeout
  (endpoint : string) (options : RequestOptions) (p : Proc W)
  (latency : Z) (r : Response) (w' : W) :
  let timeout := default 30000 (opt_timeout options) in
  let req := wire_request (this p) endpoint options in
  network req (world p) = (Responds latency r, w') ->
  latency <= timeout ->
  status r <> 429 ->
  ok r = false ->
  timeout < bodyAt r ->
  request endpoint options p =
    (Throw (newError (timeoutMessage timeout endpoint)),
     mkProc w' (wire p ++ [req]) (with_rate_limit (headers r) (this p))).
Proof.
  intros timeout req Hnet Hle Hst Hok Hbody.
  rewrite request_unfold. cbn zeta. fold timeout req.
  rewrite (fetch_responds _ _ _ _ _ _ Hnet Hle). cbn.
  apply Z.eqb_neq in Hst. rewrite Hst, Hok. cbn.
  apply Z.ltb_lt in Hbody. now rewrite Hbody.
Qed.

End RequestPaths.

(* ===================================================================== *)
(** * Further properties of the bulk create *)
(* ===================================================================== *)

Lemma chunks_length {A : Type} (l : list A) :
  length (chunks l) = ((length l + 999) / 1000)%nat.
Proof.
  assert (Hlt : forall i, (i < length (chunks l))%nat <-> (i * 1000 < length l)%nat).
  { intros i. rewrite <- lookup_lt_is_Some, chunks_lookup.
    change chunkSize with 1000%nat.
    destruct (decide (i * 1000 < length l)%nat) as [Hi|Hi]; split; intros Hx;
      try assumption; try (eexists; reflexivity); try contradiction.
    destruct Hx as [x Hx]. discriminate. }
  set (n := length (chunks l)) in *. set (L := length l) in *.
  assert (Hn : ~ (n * 1000 < L)%nat) by (rewrite <- Hlt; lia).
  assert (Hp : (n = 0 \/ (n - 1) * 1000 < L)%nat).
  { destruct n as [|n']; [now left | right]. apply Hlt. lia. }
  pose proof (Nat.div_mod_eq (L + 999) 1000) as Hdiv.
  pose proof (Nat.mod_upper_bound (L + 999) 1000 ltac:(lia)) as Hmod.
  set (q := ((L + 999) / 1000)%nat) in *.
  set (m := ((L + 999) mod 1000)%nat) in *.
  lia.
Qed.

Lemma chunks_bounds {A : Type} (l : list A) (chunk : list A) :
  chunk ∈ chunks l -> (0 < length chunk <= 1000)%nat.
Proof.
  intros Hin. apply list_elem_of_lookup in Hin. destruct Hin as [i Hi].
  rewrite chunks_lookup, slice_chunk in Hi.
  destruct (decide _) as [Hlt|]; [|discriminate]. injection Hi as <-.
  rewrite length_take, length_drop. change chunkSize with 1000%nat in *. lia.
Qed.

Lemma dedupe_from_id (seen : list string) (l : list Customer.t) :
  Forall (fun c => has_email c = true) l ->
  NoDup (map email_key l) ->
  (forall k, k ∈ map email_key l -> k ∉ seen) ->
  dedupe_from seen l = l.
Proof.
  revert seen. induction l as [|c l IH]; intros seen Hall Hnd Hout; [reflexivity|].
  inversion Hall as [|? ? Hc Hl]; subst.
  inversion Hnd as [|? ? Hfresh Hnd']; subst.
  rewrite dedupe_from_cons_new; [|exact Hc|apply Hout; now left].
  f_equal. apply IH; [assumption..|].
  intros k Hk Hin. apply elem_of_app in Hin. destruct Hin as [Hin|Hin].
  - apply (Hout k); [now right | exact Hin].
  - apply list_elem_of_singleton in Hin. subst. contradiction.
Qed.

Lemma dedupe_from_covers (seen : list string) (l : list Customer.t) (c : Customer.t) :
  c ∈ l -> has_email c = true ->
  email_key c ∈ seen \/ email_key c ∈ map email_key (dedupe_from seen l).
Proof.
  revert seen. induction l as [|a l IH]; intros seen Hin Hc; [inversion Hin|].
  destruct (has_email a) eqn:Ha.
  - destruct (decide (email_key a ∈ seen)) as [Hseen|Hnew].
    + rewrite dedupe_from_cons_dup by assumption.
      apply elem_of_cons in Hin. destruct Hin as [->|Hin]; [now left | now apply IH].
    + rewrite dedupe_from_cons_new by assumption. cbn [map].
      apply elem_of_cons in Hin. destruct Hin as [->|Hin].
      * right. now left.
      * destruct (IH (seen ++ [email_key a]) Hin Hc) as [Hs|Hd].
        -- apply elem_of_app in Hs. destruct Hs as [Hs|Hs]; [now left|].
           apply list_elem_of_singleton in Hs. right. rewrite Hs. now left.
        -- right. now right.
  - rewrite dedupe_from_cons_skip by assumption.
    apply elem_of_cons in Hin. destruct Hin as [->|Hin]; [congruence | now apply IH].
Qed.

(** X9: a list is left as it is by the de-duplication exactly when every
    entry has an address and no two entries share a lower-cased address;
    de-duplicating twice is the same as once. *)
Theorem dedupe_fixed_point (l : list Customer.t) :
  (dedupe l = l <->
   Forall (fun c => has_email c = true) l /\ NoDup (map email_key l)) /\
  dedupe (dedupe l) = dedupe l.
Proof.
  assert (Hfix : forall l',
             Forall (fun c => has_email c = true) l' -> NoDup (map email_key l') ->
             dedupe l' = l').
  { intros l' Hall Hnd. apply dedupe_from_id; [assumption..|].
    intros k _ Hk. inversion Hk. }
  assert (Hd : Forall (fun c => has_email c = true) (dedupe l) /\
               NoDup (map email_key (dedupe l))).
  { split; [|apply dedupe_from_keys].
    apply Forall_forall. intros c Hc. now apply dedupe_from_has_email in Hc. }
  split; [split|].
  - intros Heq. now rewrite <- Heq.
  - intros [Hall Hnd]. now apply Hfix.
  - now apply Hfix.
Qed.

(** X10: no address is lost: for every input entry that has an address,
    the de-duplicated list holds an entry with the same lower-cased
    address. *)
Theorem dedupe_complete (l : list Customer.t) (c : Customer.t) :
  c ∈ l -> has_email c = true ->
  exists c', c' ∈ dedupe l /\ email_key c' = email_key c.
Proof.
  intros Hin Hc.
  destruct (dedupe_from_covers [] l c Hin Hc) as [Hs|Hd]; [inversion Hs|].
  apply list_elem_of_In, in_map_iff in Hd. destruct Hd as (c' & Hk & Hc').
  exists c'. split; [now apply list_elem_of_In | exact Hk].
Qed.

Lemma count_rows_app (flag : bool) (a b : list ResultRow) :
  count_rows flag (a ++ b) = (count_rows flag a + count_rows flag b)%nat.
Proof. unfold count_rows. now rewrite List.filter_app, length_app. Qed.

Lemma count_rows_chunk (flag : bool) (chunk : list Customer.t) (r : Result Json) :
  count_rows flag (rows_of chunk r) =
  if Bool.eqb (succeeded r) flag then length chunk else 0%nat.
Proof.
  unfold count_rows.
  destruct r as [j|e]; cbn [rows_of succeeded]; induction chunk as [|c chunk IH];
    cbn; destruct flag; cbn in *; auto.
Qed.

Lemma count_rows_entries (cs : list (list Customer.t)) (rs : list (Result Json)) :
  count_rows true (concat (zip_with rows_of cs rs)) = count_entries succeeded cs rs /\
  count_rows false (concat (zip_with rows_of cs rs)) =
    count_entries (fun r => negb (succeeded r)) cs rs.
Proof.
  revert rs. induction cs as [|chunk cs IH]; intros [|r rs]; try (split; reflexivity).
  cbn [zip_with concat count_entries]. rewrite !count_rows_app, !count_rows_chunk.
  destruct (IH rs) as [-> ->]. destruct (succeeded r); split; reflexivity.
Qed.

Lemma rows_flag_matches_error (cs : list (list Customer.t)) (rs : list (Result Json)) :
  Forall (fun row => row_success row = true <-> row_error row = None)
    (concat (zip_with rows_of cs rs)).
Proof.
  revert rs. induction cs as [|chunk cs IH]; intros [|r rs]; try constructor.
  cbn [zip_with concat]. apply Forall_app. split; [|apply IH].
  destruct r as [j|e]; cbn [rows_of]; apply Forall_forall; intros row Hrow;
    apply list_elem_of_In, in_map_iff in Hrow; destruct Hrow as (c & <- & _); cbn;
    split; congruence.
Qed.

Section BulkExtras.
Context {W : Type} `{Host W}.

(** X11: [createCustomers] issues exactly ceil(n / 1000) network calls for
    n de-duplicated entries, each a POST carrying at least one and at most
    1000 of them. *)
Theorem createCustomers_call_count (customers : list Customer.t)
  (cache : PluginCache.t Json) (p : Proc W) :
  let p' := snd (snd (createCustomers customers (cache, p))) in
  exists calls : list FetchRequest,
    wire p' = wire p ++ calls /\
    length calls = ((length (dedupe customers) + 999) / 1000)%nat /\
    Forall (fun req =>
              method req = "POST" /\
              exists chunk, req_body req = Some (CustomersBody chunk) /\
                            (0 < length chunk <= 1000)%nat) calls.
Proof.
  intros p'. subst p'. rewrite createCustomers_eq. cbn [snd].
  destruct (outcomes_wire (chunks (dedupe customers)) p) as (Hw & _).
  eexists. split; [exact Hw|]. split.
  - now rewrite length_map, chunks_length.
  - apply Forall_forall. intros req Hreq.
    apply list_elem_of_In, in_map_iff in Hreq. destruct Hreq as (chunk & <- & Hchunk).
    split; [reflexivity|]. exists chunk. split; [reflexivity|].
    now apply (chunks_bounds (dedupe customers)), list_elem_of_In.
Qed.

(** X12: in the result of [createCustomers] the two counts are the numbers
    of rows with [success] true and false, there is one row per
    de-duplicated entry, and a row carries an error message exactly when
    its [success] is false. *)
Theorem createCustomers_counts_match_rows (customers : list Customer.t)
  (cache : PluginCache.t Json) (p : Proc W) :
  exists (b : BulkResult) (st : St),
    createCustomers customers (cache, p) = (Ok b, st) /\
    success_count b = count_rows true (results b) /\
    error_count b = count_rows false (results b) /\
    length (results b) = length (dedupe customers) /\
    Forall (fun row => row_success row = true <-> row_error row = None) (results b).
Proof.
  eexists _, _. split; [apply createCustomers_eq|].
  cbn [success_count error_count results].
  destruct (count_rows_entries (chunks (dedupe customers))
              (fst (outcomes (chunks (dedupe customers)) p))) as [-> ->].
  repeat split; try reflexivity.
  - rewrite <- (length_map row_email), rows_emails by apply outcomes_length.
    now rewrite length_map, chunks_concat.
  - apply rows_flag_matches_error.
Qed.

(** X13: when the DELETE request of [deleteCustomer] fails, the failure
    is passed on and the cache is left exactly as it was: no entry is
    invalidated.  The request sent is a DELETE of [/customers] whose body
    is the address. *)
Theorem deleteCustomer_failure_keeps_cache (email : string)
  (cache : PluginCache.t Json) (p p1 : Proc W) (e : Error) :
  request "/customers"
    (mkRequestOptions (Some "DELETE") None (Some (EmailBody email)) None) p
  = (Throw e, p1) ->
  deleteCustomer email (cache, p) = (Throw e, (cache, p1)) /\
  exists req : FetchRequest,
    wire p1 = wire p ++ [req] /\
    method req = "DELETE" /\
    href (url req) = baseUrl (this p) +:+ "/customers" /\
    searchParams (url req) = [] /\
    req_body req = Some (EmailBody email).
Proof.
  intros Hreq. split.
  - now rewrite deleteCustomer_eq, Hreq.
  - eexists. split.
    + change p1 with (snd (@Throw Json e, p1)). rewrite <- Hreq. apply request_wire.
    + repeat split.
Qed.

End BulkExtras.

(* ===================================================================== *)
(** * Further properties of the client operations *)
(* ===================================================================== *)

Lemma lift_snd_eq {C S A : Type} (m : Eff S A) (c : C) (s : S) :
  lift_snd m (c, s) = (fst (m s), (c, snd (m s))).
Proof. unfold lift_snd. now destruct (m s). Qed.

Section SwitchExtras.
Context {W : Type} `{Host W}.

Lemma read_bypass (key : string) (f : Eff (Proc W) Json) (ttl : Z)
  (cache : PluginCache.t Json) (p : Proc W) :
  cacheDisabled (this p) = true ->
  PluginCache.getOrFetch now_of key f
    (PluginCache.mkOptions ttl (cacheDisabled (this p))) (cache, p)
  = lift_snd f (cache, p).
Proof.
  intros Hd. rewrite lift_snd_eq. apply getOrFetch_bypass. now left.
Qed.

(** X14: [disableCache] keeps the stored entries, and after it every read
    operation goes straight to its request (one GET of its endpoint) and
    neither reads nor changes the cache. *)
Theorem disableCache_bypasses_reads (st : St) :
  let st' := snd (disableCache st) in
  fst (disableCache st) = Ok tt /\
  PluginCache.store (fst st') = PluginCache.store (fst st) /\
  (forall options, listCustomers options st' = lift_snd (listCustomers_fetch options) st') /\
  (forall customerId,
     getCustomer customerId st' =
     lift_snd (request ("/customers/" +:+ customerId) no_options) st') /\
  (forall options, listFeedback options st' = lift_snd (listFeedback_fetch options) st') /\
  (forall feedbackId,
     getFeedback feedbackId st' =
     lift_snd (request ("/feedback/" +:+ feedbackId) no_options) st') /\
  getNpsScore st' = lift_snd (request "/nps/score" no_options) st' /\
  getCsatScore st' = lift_snd (request "/csat/score" no_options) st' /\
  getCesScore st' = lift_snd (request "/ces/score" no_options) st' /\
  (forall limit, listCampaigns limit st' = lift_snd (listCampaigns_fetch limit) st') /\
  (forall page perPage,
     listCompanies page perPage st' = lift_snd (listCompanies_fetch page perPage) st').
Proof.
  destruct st as [cache p]. cbn zeta. cbn [disableCache set_cacheDisabled modify fst snd].
  repeat split; intros; apply read_bypass; reflexivity.
Qed.

(** X15: [enableCache] after [disableCache] gives back the process as it
    was (the entries, the counters and both switches), when caching was on
    before. *)
Theorem enableCache_restores (st : @St W) :
  PluginCache.enabled (fst st) = true ->
  cacheDisabled (this (snd st)) = false ->
  snd (@enableCache W (snd (@disableCache W st))) = st /\
  fst (@enableCache W (snd (@disableCache W st))) = Ok tt.
Proof.
  destruct st as [[ns dflt store hits misses en] [w wr [base key dis info]]].
  cbn. intros -> ->. split; reflexivity.
Qed.

(** X16: [listCustomers] asks for [/customers] with [page] and [per_page]
    when they are given, and with the [email] filter only when it is given
    and not empty: an empty address is not sent. *)
Theorem listCustomers_email_filter (options : ListCustomersOptions) (p : Proc W) :
  exists req : FetchRequest,
    wire (snd (listCustomers_fetch options p)) = wire p ++ [req] /\
    method req = "GET" /\
    req_body req = None /\
    href (url req) = baseUrl (this p) +:+ "/customers" /\
    searchParams (url req) =
      from_option (fun n => [("page", Z_toString n)]) [] (lc_page options) ++
      from_option (fun n => [("per_page", Z_toString n)]) [] (lc_perPage options) ++
      from_option (fun e => if decide (e = EmptyString) then [] else [("email", e)])
        [] (lc_email options).
Proof.
  eexists. split; [apply request_wire|].
  destruct options as [[page|] [perPage|] [[|c e]|]]; repeat split.
Qed.

End SwitchExtras.

(** X17: the constructor yields a client exactly when [config.json] parses
    and holds a non-empty [retently.apiKey]; that client has caching on and
    no rate-limit data.  A missing file ([ENOENT]) is reported as
    "config.json not found ..."; a missing or empty key as "Missing required
    config: retently.apiKey"; every other error is rethrown unchanged. *)
Theorem constructor_outcomes :
  (forall f c,
     constructor f = Ok c <->
     exists k, k <> EmptyString /\ f = ConfigJson (Some k) /\ c = new_RetentlyClient k) /\
  (forall k,
     cacheDisabled (new_RetentlyClient k) = false /\
     config_apiKey (new_RetentlyClient k) = k /\
     lastRateLimitInfo (new_RetentlyClient k) = mkRateLimitInfo None None None) /\
  (forall e, constructor (ReadError (Some "ENOENT") e) = Throw (newError configNotFoundMessage)) /\
  (forall code e, code <> Some "ENOENT" -> constructor (ReadError code e) = Throw e) /\
  (forall e, constructor (ParseError e) = Throw e) /\
  constructor (ConfigJson None) = Throw (newError missingKeyMessage) /\
  constructor (ConfigJson (Some EmptyString)) = Throw (newError missingKeyMessage).
Proof.
  split; [|repeat split].
  - intros f c. split.
    + destruct f as [code e|e|[[|x k]|]]; cbn; try discriminate.
      * destruct (bool_decide _); discriminate.
      * intros [= <-]. exists (String x k). repeat split. discriminate.
    + intros (k & Hk & -> & ->). destruct k; [congruence | reflexivity].
  - intros code e Hcode. cbn. now rewrite bool_decide_eq_false_2.
Qed.

(** Concrete runs for the further properties. *)

Lemma request_query_omits_undefined_witness :
  exists req : FetchRequest,
    wire (snd (request "/customers"
                 (mkRequestOptions None
                    (Some [("page", Some (PNumber 2)); ("email", None);
                           ("per_page", Some (PNumber 50))]) None None)
                 (boot 0 [ok_reply JNull]))) = [req] /\
    searchParams (url req) = [("page", "2"); ("per_page", "50")].
Proof.
  destruct (request_query_omits_undefined (H := Script_Host) "/customers"
              (mkRequestOptions None
                 (Some [("page", Some (PNumber 2)); ("email", None);
                        ("per_page", Some (PNumber 50))]) None None)
              (boot 0 [ok_reply JNull]) eq_refl) as (req & Hwire & _).
  exists req. split; [exact Hwire|].
  cbn in Hwire. injection Hwire as <-. reflexivity.
Defined.

Lemma request_api_error_witness :
  fst (request "/customers" no_options (boot 0 [reply 500 [] "boom" None]))
  = Throw (newError "Retently API error (500): boom").
Proof.
  destruct (request_api_error (H := Script_Host) "/customers" no_options
              (boot 0 [reply 500 [] "boom" None])
              5 (mkResponse 500 [] "boom" None 5) (mkScript 10 10 [])
              eq_refl ltac:(cbn; lia) ltac:(cbn; lia) eq_refl ltac:(cbn; lia))
    as (Hreq & _).
  now rewrite Hreq.
Defined.

Lemma request_success_witness :
  fst (request "/nps/score" no_options
         (boot 0 [Responds 5 (mkResponse 200 [] "" (Some (JNum 42)) 40000)]))
  = Ok (JNum 42) /\
  exists e,
    fst (request "/nps/score" no_options
           (boot 0 [Responds 5 (mkResponse 200 [] "" None 5)])) = Throw e /\
    name e = "SyntaxError".
Proof.
  split.
  - rewrite (proj1 (request_success (H := Script_Host) "/nps/score" no_options
               (boot 0 [Responds 5 (mkResponse 200 [] "" (Some (JNum 42)) 40000)])
               5 (mkResponse 200 [] "" (Some (JNum 42)) 40000) (mkScript 10 10 [])
               eq_refl ltac:(cbn; lia) eq_refl) (JNum 42) eq_refl).
    reflexivity.
  - destruct (proj2 (request_success (H := Script_Host) "/nps/score" no_options
               (boot 0 [Responds 5 (mkResponse 200 [] "" None 5)])
               5 (mkResponse 200 [] "" None 5) (mkScript 10 10 [])
               eq_refl ltac:(cbn; lia) eq_refl) eq_refl) as (e & Hreq & Hname).
    exists e. now rewrite Hreq.
Defined.

Lemma request_ok_only_on_2xx_witness :
  exists (latency : Z) (r : Response),
    fst (network (wire_request (this (boot 0 [ok_reply (JNum 7)])) "/ces/score" no_options)
           (world (boot 0 [ok_reply (JNum 7)]))) = Responds latency r /\
    latency <= 30000 /\
    200 <= status r <= 299 /\
    json r = Some (JNum 7) /\
    getRateLimitInfo (snd (request "/ces/score" no_options (boot 0 [ok_reply (JNum 7)])))
      = parseRateLimit (headers r).
Proof.
  exact (request_ok_only_on_2xx (H := Script_Host) "/ces/score" no_options
           (boot 0 [ok_reply (JNum 7)])
           (snd (request "/ces/score" no_options (boot 0 [ok_reply (JNum 7)])))
           (JNum 7) eq_refl).
Defined.

Lemma request_network_failure_witness :
  fst (request "/campaigns" no_options
         (boot 0 [Fails 3 (mkError "TypeError" "fetch failed")]))
  = Throw (mkError "TypeError" "fetch failed").
Proof.
  rewrite (request_network_failure (H := Script_Host) "/campaigns" no_options
             (boot 0 [Fails 3 (mkError "TypeError" "fetch failed")])
             3 (mkError "TypeError" "fetch failed") (mkScript 10 10 [])
             eq_refl ltac:(cbn; lia)).
  reflexivity.
Defined.

Lemma request_error_body_timeout_witness :
  let run :=
    request "/feedback" no_options
      (boot 0 [Responds 5 (mkResponse 500 [("X-RateLimit-Remaining", "7")] "late" None 30001)]) in
  fst run = Throw (newError "Request timeout after 30000ms: /feedback") /\
  remaining (getRateLimitInfo (snd run)) = Some (Int 7).
Proof.
  intros run. subst run.
  rewrite (request_error_body_timeout (H := Script_Host) "/feedback" no_options
             (boot 0 [Responds 5
                        (mkResponse 500 [("X-RateLimit-Remaining", "7")] "late" None 30001)])
             5 (mkResponse 500 [("X-RateLimit-Remaining", "7")] "late" None 30001)
             (mkScript 10 10 [])
             eq_refl ltac:(cbn; lia) ltac:(cbn; lia) eq_refl ltac:(cbn; lia)).
  split; reflexivity.
Defined.

Lemma dedupe_complete_witness :
  exists c',
    c' ∈ dedupe [customer_of (Some "a@x.com") (Some "first");
                 customer_of (Some "A@X.COM") (Some "second")] /\
    email_key c' = email_key (customer_of (Some "A@X.COM") (Some "second")).
Proof.
  apply (dedupe_complete
           [customer_of (Some "a@x.com") (Some "first");
            customer_of (Some "A@X.COM") (Some "second")]
           (customer_of (Some "A@X.COM") (Some "second"))).
  - right. left.
  - reflexivity.
Defined.

Lemma deleteCustomer_failure_keeps_cache_witness :
  deleteCustomer "a@x.com" (sample_cache, boot 0 [reply 404 [] "no such customer" None])
  = (Throw (newError "Retently API error (404): no such customer"),
     (sample_cache,
      snd (request "/customers"
             (mkRequestOptions (Some "DELETE") None (Some (EmailBody "a@x.com")) None)
             (boot 0 [reply 404 [] "no such customer" None])))).
Proof.
  exact (proj1 (deleteCustomer_failure_keeps_cache (H := Script_Host) "a@x.com"
                  sample_cache (boot 0 [reply 404 [] "no such customer" None])
                  _ _ eq_refl)).
Defined.

Lemma enableCache_restores_witness :
  snd (enableCache (snd (disableCache (sample_cache, boot 0 [])))) = (sample_cache, boot 0 []).
Proof.
  exact (proj1 (enableCache_restores (sample_cache, boot 0 []) eq_refl eq_refl)).
Defined.
